(** * WireGuard link monitor: the peer classification pipeline

    A shallow embedding of [src/components/MonitorEnlaces.tsx]: the
    functions [processPeers] and [calculateStats] and the search/status
    filter effect of the [MonitorEnlaces] component, together with the
    JavaScript string primitives and the two regular expressions they
    rely on.

    Strings are sequences of code units taken in the Latin-1 range (the
    8-bit [ascii] type): [toLowerCase], [trim] and the character class
    [\d] are modelled as ECMAScript defines them on that range. *)

From Stdlib Require Import String Ascii List Bool NArith ZArith Lia.
From Stdlib Require Import DecimalString.
Import ListNotations.

Local Open Scope string_scope.

(** ** JavaScript string primitives *)

Module Js.

Definition code (c : ascii) : N := N_of_ascii c.

Definition between (lo hi : N) (c : ascii) : bool :=
  ((lo <=? code c) && (code c <=? hi))%N.

(** [\d] without the [u] flag: the ten ASCII digits. *)
Definition is_digit (c : ascii) : bool := between 48 57 c.

(** WhiteSpace and LineTerminator code units below 256: TAB, LF, VT, FF,
    CR, SP and NBSP. *)
Definition is_space (c : ascii) : bool :=
  between 9 13 c || (code c =? 32)%N || (code c =? 160)%N.

(** Code units that [toLowerCase] changes: A-Z, and the Latin-1 capitals
    U+00C0-U+00DE except the multiplication sign U+00D7. *)
Definition is_upper (c : ascii) : bool :=
  between 65 90 c || between 192 214 c || between 216 222 c.

Definition lower_char (c : ascii) : ascii :=
  if is_upper c then ascii_of_N (code c + 32) else c.

(** [s.toLowerCase()] *)
Fixpoint toLowerCase (s : string) : string :=
  match s with
  | EmptyString => EmptyString
  | String c s' => String (lower_char c) (toLowerCase s')
  end.

(** [s.startsWith(p)] *)
Fixpoint startsWith (s p : string) {struct p} : bool :=
  match p, s with
  | EmptyString, _ => true
  | String a p', String b s' => Ascii.eqb a b && startsWith s' p'
  | String _ _, EmptyString => false
  end.

(** [s.includes(sub)]: [sub] occurs in [s] at some index. *)
Fixpoint includes (s sub : string) : bool :=
  startsWith s sub ||
  match s with
  | EmptyString => false
  | String _ s' => includes s' sub
  end.

(** [s.split(sep)] for a one-character separator; the result is never
    empty: the empty string splits into one empty piece. *)
Fixpoint split (sep : ascii) (s : string) : list string :=
  match s with
  | EmptyString => [EmptyString]
  | String c s' =>
      if Ascii.eqb c sep then EmptyString :: split sep s'
      else match split sep s' with
           | piece :: rest => String c piece :: rest
           | [] => [String c EmptyString]
           end
  end.

Fixpoint trimStart (s : string) : string :=
  match s with
  | EmptyString => EmptyString
  | String c s' => if is_space c then trimStart s' else s
  end.

Fixpoint trimEnd (s : string) : string :=
  match s with
  | EmptyString => EmptyString
  | String c s' =>
      match trimEnd s' with
      | EmptyString => if is_space c then EmptyString else String c EmptyString
      | r => String c r
      end
  end.

(** [s.trim()] *)
Definition trim (s : string) : string := trimEnd (trimStart s).

(** Truthiness of an optional string: [undefined] and the empty string
    are falsy. *)
Definition truthy (o : option string) : bool :=
  match o with
  | Some s => negb (s =? "")
  | None => false
  end.

(** [a || b] where both sides may be [undefined]. *)
Definition or (a b : option string) : option string :=
  if truthy a then a else b.

(** [a || d] where [d] is a string literal. *)
Definition or_else (a : option string) (d : string) : string :=
  match a with
  | Some s => if s =? "" then d else s
  | None => d
  end.

(** [parseInt(s)] on a string that starts with decimal digits: the value
    of the longest digit prefix; [None] stands for [NaN].  The value is
    kept exact: the only use made of it is a comparison with integers
    below 2^53, which rounding to a double does not affect. *)
Fixpoint parseDigits (acc : N) (s : string) : N :=
  match s with
  | String c s' =>
      if is_digit c then parseDigits (10 * acc + (code c - 48))%N s' else acc
  | EmptyString => acc
  end.

Definition parseInt (s : string) : option N :=
  match s with
  | String c _ => if is_digit c then Some (parseDigits 0 s) else None
  | EmptyString => None
  end.

End Js.

(** ** Regular expressions

    Both patterns of the source are sequences of single-character tests
    and greedy one-or-more repetitions of a character class, so a regular
    expression is a list of such atoms.  [match_here] is the backtracking
    matcher at a fixed start position; it returns the text consumed by each
    atom, from which the capture groups are read off. *)

Module Regex.

Inductive atom : Type :=
| Chr (p : ascii -> bool)     (* one character satisfying p *)
| Plus (p : ascii -> bool).   (* p+ , greedy *)

Definition regex : Type := list atom.

Definition cons_piece (c : ascii) (ps : list string) : list string :=
  match ps with
  | piece :: rest => String c piece :: rest
  | [] => [String c EmptyString]
  end.

Fixpoint match_here (re : regex) : string -> option (list string) :=
  match re with
  | [] => fun _ => Some []
  | Chr p :: re' =>
      fun s =>
        match s with
        | String c s' =>
            if p c
            then option_map (cons (String c EmptyString)) (match_here re' s')
            else None
        | EmptyString => None
        end
  | Plus p :: re' =>
      fix plus (s : string) : option (list string) :=
        match s with
        | String c s' =>
            if p c then
              match plus s' with
              | Some ps => Some (cons_piece c ps)
              | None =>
                  option_map (cons (String c EmptyString)) (match_here re' s')
              end
            else None
        | EmptyString => None
        end
  end.

(** The result of [s.match(re)] for a pattern without the [g] flag: the
    text skipped before the leftmost match (its length is the [index]
    property) and the pieces of the match. *)
Record result : Type := { skipped : string; pieces : list string }.

Definition shift (c : ascii) (r : result) : result :=
  {| skipped := String c (skipped r); pieces := pieces r |}.

Fixpoint search (re : regex) (s : string) : option result :=
  match match_here re s with
  | Some ps => Some {| skipped := EmptyString; pieces := ps |}
  | None =>
      match s with
      | String c s' => option_map (shift c) (search re s')
      | EmptyString => None
      end
  end.

Fixpoint flatten (ps : list string) : string :=
  match ps with
  | [] => EmptyString
  | piece :: rest => piece ++ flatten rest
  end.

(** Element 0 of the match array: the whole matched text. *)
Definition whole (r : result) : string := flatten (pieces r).

(** A literal character under the [i] flag.  For the ASCII letters used
    here, comparing lower-cased code units is the canonicalisation of
    ECMAScript. *)
Definition Chr_i (lit : ascii) : atom :=
  Chr (fun c => Ascii.eqb (Js.lower_char c) (Js.lower_char lit)).

Definition Lit (lit : ascii) : atom := Chr (Ascii.eqb lit).

End Regex.

(** ** Data model *)

(** The raw record returned by the router, [interface WireGuardPeer].
    Fields declared with [?] are optional. *)
Record WireGuardPeer : Type := {
  wg_id : string;                        (* ".id" *)
  wg_allowed_address : string;           (* "allowed-address" *)
  wg_client_endpoint : string;           (* "client-endpoint" *)
  wg_comment : option string;            (* comment? *)
  wg_current_endpoint_address : string;  (* "current-endpoint-address" *)
  wg_interface : string;                 (* interface *)
  wg_last_handshake : option string;     (* "last-handshake"? *)
  wg_name : option string;               (* name? *)
  wg_disabled : option bool              (* disabled? *)
}.

(** [interface ProcessedPeer] *)
Record ProcessedPeer : Type := {
  id : string;
  name : string;
  wgIP : string;
  lans : list string;
  status : string;
  lastHandshake : string;
  comment : string;
  endpointAddress : string
}.

Definition DDNS_RESERVED_MCS : list N := [2; 7; 14; 20; 26; 46; 62; 66; 70]%N.

Record StaticOverride : Type := { mcNumber : N; lan : string }.

Definition STATIC_OVERRIDES : list StaticOverride :=
  [ {| mcNumber := 5;  lan := "172.16.100.26" |};
    {| mcNumber := 8;  lan := "190.2.221.40:10554" |};
    {| mcNumber := 19; lan := "192.168.13.0/24" |};
    {| mcNumber := 21; lan := "201.193.161.165" |};
    {| mcNumber := 22; lan := "192.168.11.0/24" |};
    {| mcNumber := 31; lan := "177.93.6.24" |};
    {| mcNumber := 38; lan := "201.192.162.70:5554" |};
    {| mcNumber := 63; lan := "177.93.31.175" |} ]%N.

(** ** processPeers *)

(** [/(\d+\.\d+\.\d+\.\d+)/] *)
Definition ipv4_re : Regex.regex :=
  [ Regex.Plus Js.is_digit; Regex.Lit "."; Regex.Plus Js.is_digit; Regex.Lit ".";
    Regex.Plus Js.is_digit; Regex.Lit "."; Regex.Plus Js.is_digit ]%char.

(** [/MC(\d+)/i] *)
Definition mc_re : Regex.regex :=
  [ Regex.Chr_i "M"; Regex.Chr_i "C"; Regex.Plus Js.is_digit ]%char.

(** [peer["allowed-address"].match(ipv4)]: group 1 spans the whole pattern. *)
Definition wgIPMatch (allowed : string) : option string :=
  option_map Regex.whole (Regex.search ipv4_re allowed).

(** [name.match(/MC(\d+)/i)]: group 1 is the text of the third atom. *)
Definition mcMatch (nm : string) : option string :=
  option_map (fun r => nth 2 (Regex.pieces r) EmptyString) (Regex.search mc_re nm).

Definition resolveName (peer : WireGuardPeer) : string :=
  Js.or_else (Js.or (wg_name peer) (wg_comment peer)) "Sin nombre".

Definition keepLan (addr : string) : bool :=
  negb (Js.includes addr "100.100.100") && negb (Js.includes addr "172.16.100").

Definition lansOf (allowed : string) : list string :=
  map Js.trim (filter keepLan (Js.split "," allowed)).

Definition isActive (lh : option string) : bool :=
  match lh with
  | Some s =>
      negb (s =? "") && negb (Js.includes s "h") && negb (Js.includes s "d")
      && negb (Js.includes s "w")
  | None => false
  end.

Definition defaultStatus (lh : option string) : string :=
  if isActive lh then "active" else "inactive".

Section Classifier.

(** The two lookup tables, as the classifier reads them. *)
Variable reserved : list N.
Variable overrides : list StaticOverride.

(** [reserved.includes(mcNum)] *)
Definition isReserved (mcNum : option N) : bool :=
  match mcNum with
  | Some n => existsb (N.eqb n) reserved
  | None => false
  end.

(** [overrides.some(s => s.mcNumber === mcNum)] *)
Definition isOverride (mcNum : option N) : bool :=
  match mcNum with
  | Some n => existsb (fun s => N.eqb (mcNumber s) n) overrides
  | None => false
  end.

Definition classify (nm : string) (lh : option string) : string :=
  let status := defaultStatus lh in
  match mcMatch nm with
  | Some digits =>
      let mcNum := Js.parseInt digits in
      let status := if isReserved mcNum then "reserved-ddns" else status in
      let status := if isOverride mcNum then "static-override" else status in
      status
  | None => status
  end.

Definition processPeerWith (peer : WireGuardPeer) : ProcessedPeer :=
  let name := resolveName peer in
  let wgIP :=
    match wgIPMatch (wg_allowed_address peer) with
    | Some m => m
    | None => "N/A"
    end in
  let lans := lansOf (wg_allowed_address peer) in
  let status := classify name (wg_last_handshake peer) in
  {| id := wg_id peer;
     name := name;
     wgIP := wgIP;
     lans := lans;
     status := status;
     lastHandshake := Js.or_else (wg_last_handshake peer) "never";
     comment := Js.or_else (wg_comment peer) "";
     endpointAddress :=
       Js.or_else (Some (wg_current_endpoint_address peer)) "N/A" |}.

End Classifier.

Definition processPeer : WireGuardPeer -> ProcessedPeer :=
  processPeerWith DDNS_RESERVED_MCS STATIC_OVERRIDES.

Definition processPeers (rawPeers : list WireGuardPeer) : list ProcessedPeer :=
  map processPeer rawPeers.

(** ** Component state, calculateStats and the filter effect *)

Record Stats : Type := {
  total : Z;
  active : Z;
  inactive : Z;
  reserved_ : Z;   (* reserved *)
  static : Z;
  available : Z
}.

Record MonitorState : Type := {
  peers : list ProcessedPeer;
  filteredPeers : list ProcessedPeer;
  searchTerm : string;
  filterStatus : string;
  stats : Stats
}.

Definition setStats (s : Stats) (st : MonitorState) : MonitorState :=
  {| peers := peers st; filteredPeers := filteredPeers st;
     searchTerm := searchTerm st; filterStatus := filterStatus st;
     stats := s |}.

Definition setFilteredPeers (l : list ProcessedPeer) (st : MonitorState)
  : MonitorState :=
  {| peers := peers st; filteredPeers := l;
     searchTerm := searchTerm st; filterStatus := filterStatus st;
     stats := stats st |}.

(** [peersList.filter(p => p.status === s).length] *)
Definition countStatus (s : string) (peersList : list ProcessedPeer) : Z :=
  Z.of_nat (length (filter (fun p => status p =? s) peersList)).

Definition calculateStats (peersList : list ProcessedPeer) (st : MonitorState)
  : MonitorState :=
  let stats :=
    {| total := Z.of_nat (length peersList);
       active := countStatus "active" peersList;
       inactive := countStatus "inactive" peersList;
       reserved_ := countStatus "reserved-ddns" peersList;
       static := countStatus "static-override" peersList;
       available := 200 - Z.of_nat (length peersList) |} in
  setStats stats st.

(** The predicate of the search filter. *)
Definition matchesSearch (searchTerm : string) (peer : ProcessedPeer) : bool :=
  Js.includes (Js.toLowerCase (name peer)) (Js.toLowerCase searchTerm)
  || Js.includes (wgIP peer) searchTerm
  || Js.includes (Js.toLowerCase (comment peer)) (Js.toLowerCase searchTerm).

(** The body of the effect that runs when [searchTerm], [filterStatus] or
    [peers] change. *)
Definition applyFilters (st : MonitorState) : MonitorState :=
  let filtered := peers st in
  let filtered :=
    if negb (searchTerm st =? "")
    then filter (matchesSearch (searchTerm st)) filtered
    else filtered in
  let filtered :=
    if negb (filterStatus st =? "all")
    then filter (fun peer => status peer =? filterStatus st) filtered
    else filtered in
  setFilteredPeers filtered st.

(** ** Rendering of a table row *)

(** [ps.join(sep)] *)
Fixpoint joinWith (sep : string) (ps : list string) : string :=
  match ps with
  | [] => ""
  | [piece] => piece
  | piece :: rest => piece ++ sep ++ joinWith sep rest
  end.

(** The LANs cell: [peer.lans.length > 0 ? peer.lans.join(', ') : '-'] *)
Definition lansCell (peer : ProcessedPeer) : string :=
  if (0 <? length (lans peer))%nat then joinWith ", " (lans peer) else "-".

(** The comment cell: [peer.comment || '-'] *)
Definition commentCell (peer : ProcessedPeer) : string :=
  Js.or_else (Some (comment peer)) "-".

(** ** fetchPeers *)

Record Toast : Type := {
  title : string;
  description : string;
  variant : option string
}.

(** A thrown value: an [Error] instance with its message, or anything
    else. *)
Inductive Thrown : Type :=
| ErrorObject (message : string)
| OtherValue.

(** The body the edge function answers with: [{ success, data, error }]. *)
Record Payload : Type := {
  success : bool;
  data : list WireGuardPeer;
  error : option string
}.

(** What [supabase.functions.invoke] resolves to: an error, or the data. *)
Inductive InvokeResult : Type :=
| InvokeError (e : Thrown)
| InvokeData (payload : Payload).

(** The component: the state the claims are about, the [loading] flag and
    the toasts shown so far, oldest first. *)
Record Component : Type := {
  view : MonitorState;
  loading : bool;
  toasts : list Toast
}.

Definition setPeers (l : list ProcessedPeer) (st : MonitorState)
  : MonitorState :=
  {| peers := l; filteredPeers := filteredPeers st;
     searchTerm := searchTerm st; filterStatus := filterStatus st;
     stats := stats st |}.

Definition onView (f : MonitorState -> MonitorState) (c : Component)
  : Component :=
  {| view := f (view c); loading := loading c; toasts := toasts c |}.

Definition setLoading (b : bool) (c : Component) : Component :=
  {| view := view c; loading := b; toasts := toasts c |}.

Definition toast (t : Toast) (c : Component) : Component :=
  {| view := view c; loading := loading c; toasts := toasts c ++ [t] |}.

(** A length interpolated in a template literal. *)
Definition numberToString (n : nat) : string :=
  NilZero.string_of_uint (Nat.to_uint n).

(** The [try] block: it completes with a new state, or throws before any
    state is changed. *)
Definition fetchTry (res : InvokeResult) (c : Component) : Component + Thrown :=
  match res with
  | InvokeError e => inr e
  | InvokeData payload =>
      if success payload then
        let processed := processPeers (data payload) in
        let c := onView (setPeers processed) c in
        let c := onView (setFilteredPeers processed) c in
        let c := onView (calculateStats processed) c in
        inl (toast {| title := "Datos actualizados";
                      description :=
                        numberToString (length processed)
                        ++ " enlaces cargados correctamente";
                      variant := None |} c)
      else
        inr (ErrorObject (match error payload with
                          | Some m => m
                          | None => ""
                          end))
  end.

(** The [catch] block. *)
Definition fetchCatch (e : Thrown) (c : Component) : Component :=
  toast {| title := "Error al cargar datos";
           description :=
             match e with
             | ErrorObject m => m
             | OtherValue => "Error desconocido"
             end;
           variant := Some "destructive" |} c.

(** [fetchPeers], given what the invocation resolves to. *)
Definition fetchPeers (res : InvokeResult) (c : Component) : Component :=
  let c := setLoading true c in
  let c :=
    match fetchTry res c with
    | inl c' => c'
    | inr e => fetchCatch e c
    end in
  setLoading false c.

(** A refresh as the user sees it: [fetchPeers], then the filter effect,
    which runs again when [peers] has been replaced. *)
Definition refresh (res : InvokeResult) (c : Component) : Component :=
  match fetchTry res c with
  | inl _ => onView applyFilters (fetchPeers res c)
  | inr _ => fetchPeers res c
  end.

(** ** Specification-side definitions *)

(** What it means for an atom to consume a piece of text, and for a
    regular expression to match a list of pieces: the language of the
    pattern, independent of the matching strategy. *)
Fixpoint all_chars (p : ascii -> bool) (s : string) : bool :=
  match s with
  | EmptyString => true
  | String c s' => p c && all_chars p s'
  end.

Inductive atom_matches : Regex.atom -> string -> Prop :=
| am_chr : forall p c, p c = true -> atom_matches (Regex.Chr p) (String c "")
| am_plus : forall p s,
    s <> "" -> all_chars p s = true -> atom_matches (Regex.Plus p) s.

Definition matches (re : Regex.regex) (ps : list string) : Prop :=
  Forall2 atom_matches re ps.

(** [s] occurs in [t] after [pre] and before [post]. *)
Definition occurs_at (pre s post t : string) : Prop := t = pre ++ s ++ post.

(** A non-empty run of decimal digits. *)
Definition digits (s : string) : Prop :=
  s <> "" /\ all_chars Js.is_digit s = true.

(** The dotted-quad pattern, read as a set of strings. *)
Definition is_quad (m : string) : Prop :=
  exists a b c d,
    m = a ++ "." ++ b ++ "." ++ c ++ "." ++ d
    /\ digits a /\ digits b /\ digits c /\ digits d.

(** Does the text that follows a match start with a character of class
    [p]? *)
Definition next_is (p : ascii -> bool) (rest : string) : bool :=
  match rest with
  | String c _ => p c
  | EmptyString => false
  end.

(** A non-empty string whose last character is not white space. *)
Fixpoint ends_nonspace (s : string) : bool :=
  match s with
  | EmptyString => false
  | String c EmptyString => negb (Js.is_space c)
  | String _ s' => ends_nonspace s'
  end.

Definition starts_nonspace (s : string) : bool :=
  match s with
  | String c _ => negb (Js.is_space c)
  | EmptyString => false
  end.

(** localNetworks in the order of the specification's words: split on
    commas, trim each piece, then drop the pieces that contain one of the
    two infrastructure substrings. *)
Definition localNetworks_spec (allowed : string) : list string :=
  filter
    (fun piece =>
       negb (Js.includes piece "100.100.100" || Js.includes piece "172.16.100"))
    (map Js.trim (Js.split "," allowed)).

(** Name resolution in the order of the specification's words. *)
Definition name_spec (displayName cmt : option string) : string :=
  match displayName with
  | Some (String c s) => String c s
  | _ => match cmt with
         | Some (String c s) => String c s
         | _ => "Sin nombre"
         end
  end.

(** The four statuses the classifier can produce. *)
Definition closed_status (s : string) : Prop :=
  s = "active" \/ s = "inactive" \/ s = "reserved-ddns" \/ s = "static-override".

(** Two queries that differ at most in letter case. *)
Definition same_modulo_case (q1 q2 : string) : Prop :=
  Js.toLowerCase q1 = Js.toLowerCase q2.

(** Raw records used in the scenarios. *)
Definition rawPeer (allowed : string) (nm cmt lh : option string)
  : WireGuardPeer :=
  {| wg_id := "*1"; wg_allowed_address := allowed; wg_client_endpoint := "";
     wg_comment := cmt; wg_current_endpoint_address := "";
     wg_interface := "wg0"; wg_last_handshake := lh; wg_name := nm;
     wg_disabled := None |}.

Definition set_name (v : option string) (p : WireGuardPeer) : WireGuardPeer :=
  {| wg_id := wg_id p; wg_allowed_address := wg_allowed_address p;
     wg_client_endpoint := wg_client_endpoint p; wg_comment := wg_comment p;
     wg_current_endpoint_address := wg_current_endpoint_address p;
     wg_interface := wg_interface p; wg_last_handshake := wg_last_handshake p;
     wg_name := v; wg_disabled := wg_disabled p |}.

Definition set_comment (v : option string) (p : WireGuardPeer) : WireGuardPeer :=
  {| wg_id := wg_id p; wg_allowed_address := wg_allowed_address p;
     wg_client_endpoint := wg_client_endpoint p; wg_comment := v;
     wg_current_endpoint_address := wg_current_endpoint_address p;
     wg_interface := wg_interface p; wg_last_handshake := wg_last_handshake p;
     wg_name := wg_name p; wg_disabled := wg_disabled p |}.

Definition set_last_handshake (v : option string) (p : WireGuardPeer)
  : WireGuardPeer :=
  {| wg_id := wg_id p; wg_allowed_address := wg_allowed_address p;
     wg_client_endpoint := wg_client_endpoint p; wg_comment := wg_comment p;
     wg_current_endpoint_address := wg_current_endpoint_address p;
     wg_interface := wg_interface p; wg_last_handshake := v;
     wg_name := wg_name p; wg_disabled := wg_disabled p |}.

Definition set_endpoint (v : string) (p : WireGuardPeer) : WireGuardPeer :=
  {| wg_id := wg_id p; wg_allowed_address := wg_allowed_address p;
     wg_client_endpoint := wg_client_endpoint p; wg_comment := wg_comment p;
     wg_current_endpoint_address := v;
     wg_interface := wg_interface p; wg_last_handshake := wg_last_handshake p;
     wg_name := wg_name p; wg_disabled := wg_disabled p |}.

Definition emptyStats : Stats :=
  {| total := 0; active := 0; inactive := 0; reserved_ := 0; static := 0;
     available := 0 |}.

(** The component's state once [peersList] has been loaded, with the given
    search term and status filter. *)
Definition loaded (peersList : list ProcessedPeer) (term flt : string)
  : MonitorState :=
  {| peers := peersList; filteredPeers := peersList; searchTerm := term;
     filterStatus := flt; stats := emptyStats |}.

(** The initial state of the component. *)
Definition initialState : MonitorState := loaded [] "" "all".

(** The peers that pass the text predicate for a query. *)
Definition textMatches (query : string) (peersList : list ProcessedPeer)
  : list ProcessedPeer :=
  filteredPeers (applyFilters (loaded peersList query "all")).

(** The name contains "MC", in either letter case, followed by a digit. *)
Definition has_mc (nm : string) : Prop :=
  exists pre m c d post,
    nm = pre ++ String m (String c (String d post))
    /\ (m = "M" \/ m = "m")%char /\ (c = "C" \/ c = "c")%char
    /\ Js.is_digit d = true.

(** Fresh enough to count as active: the last-handshake field is present,
    not empty, and shows no hour, day or week marker. *)
Definition recent_handshake (lh : option string) : Prop :=
  exists s,
    lh = Some s /\ s <> ""
    /\ Js.includes s "h" = false /\ Js.includes s "d" = false
    /\ Js.includes s "w" = false.

(** The record of the MC7 scenario; the fields the scenario leaves open are
    parameters. *)
Definition scenarioMC7 (ident endpoint cur itf : string) (cmt : option string)
  (dis : option bool) : WireGuardPeer :=
  {| wg_id := ident;
     wg_allowed_address := "10.0.0.5/32,192.168.1.0/24,172.16.100.5";
     wg_client_endpoint := endpoint; wg_comment := cmt;
     wg_current_endpoint_address := cur; wg_interface := itf;
     wg_last_handshake := Some "2d3h"; wg_name := Some "MC7";
     wg_disabled := dis |}.

(** [ps.join(sep)], the inverse of [split]. *)
Fixpoint join (sep : ascii) (ps : list string) : string :=
  match ps with
  | [] => ""
  | [piece] => piece
  | piece :: rest => piece ++ String sep (join sep rest)
  end.

(** The characters a dotted quad is made of. *)
Definition address_char (c : ascii) : bool :=
  Js.is_digit c || Ascii.eqb c ".".

(** The number of commas in a text. *)
Fixpoint commas (s : string) : nat :=
  match s with
  | EmptyString => 0
  | String c s' => (if Ascii.eqb c "," then 1 else 0) + commas s'
  end.

(** The text is empty, or neither starts nor ends with white space. *)
Definition trimmed (s : string) : Prop :=
  s = "" \/ (starts_nonspace s = true /\ ends_nonspace s = true).

(** The filter of the effect as one predicate. *)
Definition passes (term flt : string) (peer : ProcessedPeer) : bool :=
  ((term =? "") || matchesSearch term peer)
  && ((flt =? "all") || (status peer =? flt)).

Definition idle (st : MonitorState) : Component :=
  {| view := st; loading := false; toasts := [] |}.

(** A character other than the letter M, in either case. *)
Definition other_than_m (c : ascii) : bool :=
  negb (Ascii.eqb (Js.lower_char c) "m").

(** * Properties *)

(** ** Strings *)

Lemma append_nil_r : forall s : string, s ++ "" = s.
Proof. induction s as [|c s IH]; simpl; [reflexivity | now rewrite IH]. Qed.

Lemma append_assoc : forall a b c : string, (a ++ b) ++ c = a ++ b ++ c.
Proof. induction a as [|x a IH]; intros; simpl; [reflexivity | now rewrite IH]. Qed.

Lemma length_append : forall a b : string,
  String.length (a ++ b) = String.length a + String.length b.
Proof. induction a as [|x a IH]; intros; simpl; [reflexivity | now rewrite IH]. Qed.

(** ** C6: name resolution *)

Lemma or_else_nonempty : forall o d, d <> "" -> Js.or_else o d <> "".
Proof.
  intros [s|] d Hd; simpl; [|exact Hd].
  destruct s as [|c s]; simpl; [exact Hd | discriminate].
Qed.

(** C6. The normalized name is never the empty string, and it is resolved
    in the order displayName, then comment, then the fixed sentinel for
    unnamed peers ("Sin nombre"). *)
Theorem name_resolution_order : forall reserved overrides peer,
  name (processPeerWith reserved overrides peer) <> ""
  /\ name (processPeerWith reserved overrides peer)
     = name_spec (wg_name peer) (wg_comment peer).
Proof.
  intros R O peer; simpl; unfold resolveName; split.
  - apply or_else_nonempty; discriminate.
  - destruct (wg_name peer) as [[|c s]|], (wg_comment peer) as [[|c' s']|];
      reflexivity.
Qed.

(** ** C7 and C8: calculateStats *)

Lemma closed_status_classify : forall reserved overrides nm lh,
  closed_status (classify reserved overrides nm lh).
Proof.
  intros R O nm lh; unfold classify, closed_status, defaultStatus.
  destruct (mcMatch nm) as [ds|].
  - destruct (isOverride O (Js.parseInt ds)); [tauto|].
    destruct (isReserved R (Js.parseInt ds)); [tauto|].
    destruct (isActive lh); tauto.
  - destruct (isActive lh); tauto.
Qed.

Lemma processPeers_closed : forall rawPeers,
  Forall (fun p => closed_status (status p)) (processPeers rawPeers).
Proof.
  intros rawPeers; unfold processPeers; apply Forall_map, Forall_forall.
  intros peer _; apply closed_status_classify.
Qed.

Lemma counts_partition : forall peersList,
  Forall (fun p => closed_status (status p)) peersList ->
  (countStatus "active" peersList + countStatus "inactive" peersList
   + countStatus "reserved-ddns" peersList
   + countStatus "static-override" peersList
   = Z.of_nat (length peersList))%Z.
Proof.
  unfold countStatus; induction 1 as [|p l Hp _ IH]; [reflexivity|].
  cbn [filter length].
  destruct Hp as [E|[E|[E|E]]]; rewrite E; cbn [String.eqb Ascii.eqb Bool.eqb];
    cbn [length]; lia.
Qed.

(** C7. For every list of normalized peers (each status one of the four),
    the four per-status counts sum exactly to the total count, which is
    the length of the list. *)
Theorem stats_counts_sum_to_total : forall peersList st,
  Forall (fun p => closed_status (status p)) peersList ->
  let s := stats (calculateStats peersList st) in
  (active s + inactive s + reserved_ s + static s = total s
   /\ total s = Z.of_nat (length peersList))%Z.
Proof.
  intros l st H; simpl; split; [apply counts_partition, H | reflexivity].
Qed.

Lemma stats_counts_sum_to_total_witness :
  let l := processPeers
             [rawPeer "10.0.0.5/32" (Some "MC7") None (Some "2d3h");
              rawPeer "10.0.0.8" (Some "MC8") None None;
              rawPeer "10.0.0.9" None None (Some "15s")] in
  let s := stats (calculateStats l initialState) in
  Forall (fun p => closed_status (status p)) l
  /\ (active s + inactive s + reserved_ s + static s = total s
      /\ total s = 3)%Z.
Proof.
  split; [apply processPeers_closed|].
  apply (stats_counts_sum_to_total
           (processPeers
              [rawPeer "10.0.0.5/32" (Some "MC7") None (Some "2d3h");
               rawPeer "10.0.0.8" (Some "MC8") None None;
               rawPeer "10.0.0.9" None None (Some "15s")]) initialState).
  apply processPeers_closed.
Defined.

(** C8. The available field is 200 minus the total count in exact integer
    arithmetic, without clamping: 205 peers leave -5. *)
Theorem available_not_clamped : forall peersList st,
  (available (stats (calculateStats peersList st))
   = 200 - Z.of_nat (length peersList)
   /\ forall p, available (stats (calculateStats (repeat p 205) st)) = -5)%Z.
Proof.
  intros l st; split; [reflexivity | intros p].
  unfold calculateStats, setStats; cbn [stats available].
  rewrite repeat_length; reflexivity.
Qed.

(** ** The backtracking matcher against the language of the pattern *)

Lemma match_here_plus_cons : forall p re c s,
  Regex.match_here (Regex.Plus p :: re) (String c s)
  = if p c then
      match Regex.match_here (Regex.Plus p :: re) s with
      | Some ps => Some (Regex.cons_piece c ps)
      | None =>
          option_map (cons (String c "")) (Regex.match_here re s)
      end
    else None.
Proof. reflexivity. Qed.

Lemma match_here_plus_nil : forall p re,
  Regex.match_here (Regex.Plus p :: re) "" = None.
Proof. reflexivity. Qed.

Lemma flatten_cons_piece : forall c ps,
  Regex.flatten (Regex.cons_piece c ps) = String c (Regex.flatten ps).
Proof. intros c [|piece rest]; reflexivity. Qed.

Lemma option_map_Some : forall (A B : Type) (f : A -> B) o y,
  option_map f o = Some y -> exists x, o = Some x /\ y = f x.
Proof. intros A B f [x|] y H; [injection H as <-; eauto | discriminate]. Qed.

Lemma option_map_None : forall (A B : Type) (f : A -> B) o,
  option_map f o = None -> o = None.
Proof. intros A B f [x|] H; [discriminate | reflexivity]. Qed.

(** Whatever the matcher returns is a match of the pattern, and it is a
    prefix of the text. *)
Lemma match_here_sound : forall re s ps,
  Regex.match_here re s = Some ps ->
  matches re ps /\ exists rest, s = Regex.flatten ps ++ rest.
Proof.
  induction re as [|[p|p] re IH]; intros s ps H.
  - injection H as <-; split; [constructor | exists s; reflexivity].
  - destruct s as [|c s]; [discriminate|]; simpl in H.
    destruct (p c) eqn:Hp; [|discriminate].
    apply option_map_Some in H as (ps' & H & ->).
    destruct (IH _ _ H) as (Hm & rest & ->); split.
    + constructor; [now constructor | exact Hm].
    + exists rest; reflexivity.
  - revert ps H; induction s as [|c s IHs]; intros ps H; [discriminate|].
    rewrite match_here_plus_cons in H.
    destruct (p c) eqn:Hp; [|discriminate].
    destruct (Regex.match_here (Regex.Plus p :: re) s) as [ps0|] eqn:E.
    + injection H as <-.
      destruct (IHs _ eq_refl) as (Hm & rest & ->).
      inversion Hm as [|a piece re' ps' Ha Hre]; subst; split.
      * constructor; [|exact Hre].
        inversion Ha; subst; constructor; [discriminate|].
        simpl; now rewrite Hp.
      * exists rest; reflexivity.
    + apply option_map_Some in H as (ps' & H & ->).
      destruct (IH _ _ H) as (Hm & rest & ->); split.
      * constructor; [|exact Hm].
        constructor; [discriminate | simpl; now rewrite Hp].
      * exists rest; reflexivity.
Qed.

(** If the pattern matches some prefix of the text, the matcher finds a
    match: backtracking loses none. *)
Lemma match_here_complete : forall re ps,
  matches re ps ->
  forall rest, Regex.match_here re (Regex.flatten ps ++ rest) <> None.
Proof.
  induction 1 as [|a piece re ps Ha Hre IH]; intros rest; [discriminate|].
  destruct Ha as [p c Hp | p s Hne Hall].
  - simpl; rewrite Hp.
    specialize (IH rest).
    destruct (Regex.match_here re (Regex.flatten ps ++ rest));
      [discriminate | contradiction].
  - cbn [Regex.flatten]; rewrite append_assoc.
    induction s as [|c s IHs]; [contradiction|].
    simpl in Hall; apply andb_prop in Hall as [Hp Hall].
    cbn [append]; rewrite match_here_plus_cons, Hp.
    destruct (Regex.match_here (Regex.Plus p :: re)
                (s ++ Regex.flatten ps ++ rest)) eqn:E; [discriminate|].
    destruct s as [|c' s].
    + specialize (IH rest); simpl.
      destruct (Regex.match_here re (Regex.flatten ps ++ rest));
        [discriminate | contradiction].
    + exfalso; apply IHs; [discriminate | exact Hall | reflexivity].
Qed.

(** A pattern that ends in a greedy repetition consumes the whole run:
    the text after the match does not continue it. *)
Lemma match_here_greedy_last : forall re p s ps,
  Regex.match_here (re ++ [Regex.Plus p])%list s = Some ps ->
  exists rest, s = Regex.flatten ps ++ rest /\ next_is p rest = false.
Proof.
  induction re as [|[q|q] re IH]; intros p s ps; cbn [app].
  - revert ps; induction s as [|c s IHs]; intros ps H; [discriminate|].
    rewrite match_here_plus_cons in H.
    destruct (p c) eqn:Hp; [|discriminate].
    destruct (Regex.match_here [Regex.Plus p] s) as [ps0|] eqn:E.
    + injection H as <-.
      destruct (IHs _ eq_refl) as (rest & -> & Hn).
      exists rest; rewrite flatten_cons_piece; auto.
    + injection H as <-; exists s; split; [reflexivity|].
      destruct s as [|c' s]; [reflexivity|]; simpl.
      rewrite match_here_plus_cons in E.
      destruct (p c'); [|reflexivity].
      destruct (Regex.match_here [Regex.Plus p] s); discriminate.
  - intros H; destruct s as [|c s]; [discriminate|]; simpl in H.
    destruct (q c); [|discriminate].
    apply option_map_Some in H as (ps' & H & ->).
    destruct (IH _ _ _ H) as (rest & -> & Hn); exists rest; auto.
  - revert ps; induction s as [|c s IHs]; intros ps H; [discriminate|].
    rewrite match_here_plus_cons in H.
    destruct (q c); [|discriminate].
    destruct (Regex.match_here (Regex.Plus q :: (re ++ [Regex.Plus p])%list) s)
      as [ps0|] eqn:E.
    + injection H as <-.
      destruct (IHs _ eq_refl) as (rest & -> & Hn).
      exists rest; rewrite flatten_cons_piece; auto.
    + apply option_map_Some in H as (ps' & H & ->).
      destruct (IH _ _ _ H) as (rest & -> & Hn); exists rest; auto.
Qed.

(** [search] stops at the first position where the matcher succeeds. *)
Lemma search_Some : forall re s r,
  Regex.search re s = Some r ->
  exists suffix,
    s = Regex.skipped r ++ suffix
    /\ Regex.match_here re suffix = Some (Regex.pieces r)
    /\ forall pre suffix',
         s = pre ++ suffix' ->
         String.length pre < String.length (Regex.skipped r) ->
         Regex.match_here re suffix' = None.
Proof.
  intros re; induction s as [|c s IH]; intros r H; simpl in H.
  - destruct (Regex.match_here re "") as [ps|] eqn:E; [|discriminate].
    injection H as <-; exists ""; simpl; repeat split; auto.
    intros pre suffix' _ Hlt; inversion Hlt.
  - destruct (Regex.match_here re (String c s)) as [ps|] eqn:E.
    + injection H as <-; exists (String c s); simpl; repeat split; auto.
      intros pre suffix' _ Hlt; inversion Hlt.
    + apply option_map_Some in H as (r' & H & ->).
      destruct (IH _ H) as (suffix & -> & Hm & Hfirst).
      exists suffix; simpl; repeat split; auto.
      intros [|c' pre] suffix' Heq Hlt; simpl in *.
      * now subst suffix'.
      * injection Heq as _ Heq; apply (Hfirst pre); [exact Heq | lia].
Qed.

Lemma search_None : forall re s,
  Regex.search re s = None ->
  forall pre suffix, s = pre ++ suffix -> Regex.match_here re suffix = None.
Proof.
  intros re; induction s as [|c s IH]; intros H pre suffix Heq; simpl in H.
  - destruct pre; [|discriminate]; simpl in Heq; subst suffix.
    destruct (Regex.match_here re ""); [discriminate | reflexivity].
  - destruct (Regex.match_here re (String c s)) eqn:E; [discriminate|].
    apply option_map_None in H.
    destruct pre as [|c' pre]; simpl in Heq.
    + now subst suffix.
    + injection Heq as _ Heq; now apply (IH H pre).
Qed.

(** The match reported by [search] occurs in the text, belongs to the
    language of the pattern, and no match of the pattern starts before
    it. *)
Lemma search_leftmost : forall re s r,
  Regex.search re s = Some r ->
  matches re (Regex.pieces r)
  /\ (exists post, occurs_at (Regex.skipped r) (Regex.whole r) post s)
  /\ forall pre ps post,
       matches re ps -> occurs_at pre (Regex.flatten ps) post s ->
       String.length (Regex.skipped r) <= String.length pre.
Proof.
  intros re s r H.
  destruct (search_Some _ _ _ H) as (suffix & Hs & Hm & Hfirst).
  destruct (match_here_sound _ _ _ Hm) as (Hps & post & ->).
  split; [exact Hps|]; split; [exists post; exact Hs|].
  intros pre ps post' Hps' Hocc.
  destruct (Nat.le_gt_cases (String.length (Regex.skipped r))
              (String.length pre)) as [Hle|Hlt]; [exact Hle|].
  exfalso; apply (match_here_complete _ _ Hps' post'), (Hfirst pre);
    [exact Hocc | exact Hlt].
Qed.

(** When [search] finds nothing, no substring of the text matches. *)
Lemma search_no_match : forall re s,
  Regex.search re s = None ->
  forall pre ps post,
    matches re ps -> ~ occurs_at pre (Regex.flatten ps) post s.
Proof.
  intros re s H pre ps post Hps Hocc.
  apply (match_here_complete _ _ Hps post), (search_None _ _ H pre), Hocc.
Qed.

(** ** C5: the tunnel address *)

Lemma chr_piece_inv : forall lit s,
  atom_matches (Regex.Lit lit) s -> s = String lit "".
Proof.
  intros lit s H; inversion H as [p c Hc|]; subst.
  apply Ascii.eqb_eq in Hc; now subst.
Qed.

Lemma plus_piece_inv : forall p s,
  atom_matches (Regex.Plus p) s -> s <> "" /\ all_chars p s = true.
Proof. intros p s H; inversion H; subst; auto. Qed.

Lemma matches_ipv4_quad : forall ps,
  matches ipv4_re ps -> is_quad (Regex.flatten ps).
Proof.
  intros ps H; unfold matches, ipv4_re in H.
  repeat match goal with
         | H : Forall2 _ (_ :: _) _ |- _ =>
             inversion H; subst; clear H
         | H : Forall2 _ [] _ |- _ => inversion H; subst; clear H
         end.
  repeat match goal with
         | H : atom_matches (Regex.Lit _) _ |- _ =>
             apply chr_piece_inv in H; subst
         | H : atom_matches (Regex.Plus _) _ |- _ =>
             apply plus_piece_inv in H
         end.
  cbn [Regex.flatten]; rewrite append_nil_r.
  match goal with
  | |- is_quad (?a ++ _ ++ ?b ++ _ ++ ?c ++ _ ++ ?d) =>
      exists a, b, c, d
  end.
  unfold digits; auto.
Qed.

Lemma quad_matches_ipv4 : forall m,
  is_quad m -> exists ps, matches ipv4_re ps /\ Regex.flatten ps = m.
Proof.
  intros m (a & b & c & d & -> & [Ha Ha'] & [Hb Hb'] & [Hc Hc'] & [Hd Hd']).
  exists [a; "."; b; "."; c; "."; d]; split.
  - unfold matches, ipv4_re, Regex.Lit.
    repeat first [ apply Forall2_nil
                 | apply Forall2_cons
                 | apply am_plus; assumption
                 | apply am_chr; reflexivity ].
  - cbn [Regex.flatten]; now rewrite append_nil_r.
Qed.

(** Two digit runs that end at a dot in the same text are the same run. *)
Lemma digit_run_unique : forall a a' r r',
  all_chars Js.is_digit a = true -> all_chars Js.is_digit a' = true ->
  a ++ String "." r = a' ++ String "." r' -> a = a' /\ r = r'.
Proof.
  induction a as [|x a IH]; intros [|x' a'] r r' Ha Ha' E; simpl in *.
  - injection E as ->; auto.
  - injection E as <- _; discriminate.
  - injection E as -> _; discriminate.
  - injection E as -> E.
    apply andb_prop in Ha as [_ Ha]; apply andb_prop in Ha' as [_ Ha'].
    destruct (IH _ _ _ Ha Ha' E) as [-> ->]; auto.
Qed.

(** A digit run that the following text does not continue is at least as
    long as any digit run starting at the same place. *)
Lemma digit_run_longest : forall d d' post post',
  all_chars Js.is_digit d' = true -> next_is Js.is_digit post = false ->
  d ++ post = d' ++ post' -> String.length d' <= String.length d.
Proof.
  induction d as [|x d IH]; intros [|x' d'] post post' Hd' Hn E; simpl in *;
    try lia.
  - subst post; simpl in Hn.
    apply andb_prop in Hd' as [Hx _]; congruence.
  - injection E as _ E; apply andb_prop in Hd' as [_ Hd'].
    apply le_n_S, (IH _ _ _ Hd' Hn E).
Qed.

Lemma append_same_length : forall pre pre' x x' : string,
  pre ++ x = pre' ++ x' -> String.length pre = String.length pre' ->
  pre = pre' /\ x = x'.
Proof.
  induction pre as [|c pre IH]; intros [|c' pre'] x x' E L; simpl in *;
    try discriminate; auto.
  injection E as -> E; injection L as L.
  destruct (IH _ _ _ E L) as [-> ->]; auto.
Qed.

(** Of two dotted quads that start at the same place, the one whose last
    run is not continued by the text is the longer. *)
Lemma quad_longest : forall m m' post post',
  is_quad m -> is_quad m' -> next_is Js.is_digit post = false ->
  m ++ post = m' ++ post' -> String.length m' <= String.length m.
Proof.
  intros m m' post post'
    (a & b & c & d & -> & [_ Ha] & [_ Hb] & [_ Hc] & [_ Hd])
    (a' & b' & c' & d' & -> & [_ Ha'] & [_ Hb'] & [_ Hc'] & [_ Hd']) Hn E.
  rewrite !append_assoc in E; cbn [append] in E.
  apply digit_run_unique in E as [<- E]; [|assumption..].
  apply digit_run_unique in E as [<- E]; [|assumption..].
  apply digit_run_unique in E as [<- E]; [|assumption..].
  pose proof (digit_run_longest _ _ _ _ Hd' Hn E) as L.
  cbn [append]; repeat (rewrite length_append; cbn [String.length]); lia.
Qed.

(** C5. The tunnel address is the first substring of the allowed-address
    field that matches the dotted-quad pattern: it occurs in the field, it
    is a dotted quad, no dotted quad starts before it, and it is the
    longest one starting there (so a local-network entry listed first is
    taken).  When the field contains no dotted quad at all, the tunnel
    address is the sentinel "N/A". *)
Theorem tunnel_address_first_quad : forall reserved overrides peer,
  let field := wg_allowed_address peer in
  let ip := wgIP (processPeerWith reserved overrides peer) in
  (exists pre post,
     occurs_at pre ip post field /\ is_quad ip
     /\ forall pre' m post',
          is_quad m -> occurs_at pre' m post' field ->
          String.length pre <= String.length pre'
          /\ (String.length pre' = String.length pre ->
              String.length m <= String.length ip))
  \/ (ip = "N/A"
      /\ forall pre m post, is_quad m -> ~ occurs_at pre m post field).
Proof.
  intros R O peer; cbn [wgIP processPeerWith]; unfold wgIPMatch.
  destruct (Regex.search ipv4_re (wg_allowed_address peer)) as [r|] eqn:S;
    cbn [option_map]; [left | right].
  - destruct (search_leftmost _ _ _ S) as (Hps & _ & Hleft).
    destruct (search_Some _ _ _ S) as (suffix & Hs & Hm & _).
    change ipv4_re
      with ([ Regex.Plus Js.is_digit; Regex.Lit "."; Regex.Plus Js.is_digit;
              Regex.Lit "."; Regex.Plus Js.is_digit; Regex.Lit "." ]%char
            ++ [Regex.Plus Js.is_digit])%list in Hm.
    apply match_here_greedy_last in Hm as (post & -> & Hn).
    pose proof (matches_ipv4_quad _ Hps) as Hq.
    exists (Regex.skipped r), post; split; [exact Hs|]; split; [exact Hq|].
    intros pre' m post' Hm' Hocc; split.
    + destruct (quad_matches_ipv4 _ Hm') as (ps & Hps' & <-).
      apply (Hleft _ _ _ Hps' Hocc).
    + intros L; unfold occurs_at in Hocc; rewrite Hs in Hocc.
      apply append_same_length in Hocc as [_ E]; [|now symmetry].
      apply (quad_longest _ _ _ _ Hq Hm' Hn E).
  - split; [reflexivity|].
    intros pre m post Hq Hocc.
    destruct (quad_matches_ipv4 _ Hq) as (ps & Hps & <-).
    apply (search_no_match _ _ S _ _ _ Hps Hocc).
Qed.

(** ** C4: the local networks *)

Lemma split_not_nil : forall sep s, Js.split sep s <> [].
Proof.
  intros sep [|c s]; simpl; [discriminate|].
  destruct (Ascii.eqb c sep); [discriminate|].
  destruct (Js.split sep s); discriminate.
Qed.

(** Joining the pieces with the separator gives the text back, and no
    piece contains the separator. *)
Lemma join_split : forall sep s, join sep (Js.split sep s) = s.
Proof.
  intros sep; induction s as [|c s IH]; [reflexivity|].
  pose proof (split_not_nil sep s) as Hne.
  cbn [Js.split].
  destruct (Ascii.eqb_spec c sep) as [->|_];
    destruct (Js.split sep s) as [|piece rest]; try contradiction.
  - cbn [join append] in IH |- *; now rewrite IH.
  - cbn [join] in IH |- *; destruct rest; cbn [append]; now rewrite IH.
Qed.

Lemma split_pieces_without_sep : forall sep s,
  Forall (fun piece => all_chars (fun c => negb (Ascii.eqb c sep)) piece = true)
         (Js.split sep s).
Proof.
  intros sep; induction s as [|c s IH]; [repeat constructor|].
  cbn [Js.split].
  destruct (Ascii.eqb c sep) eqn:E; [constructor; [reflexivity | exact IH]|].
  destruct (Js.split sep s) as [|piece rest]; [repeat constructor; simpl; now rewrite E|].
  inversion IH as [|x l Hx Hl]; subst.
  constructor; [simpl; now rewrite E, Hx | exact Hl].
Qed.

Lemma startsWith_trimEnd : forall s sub,
  ends_nonspace sub = true ->
  Js.startsWith (Js.trimEnd s) sub = Js.startsWith s sub.
Proof.
  induction s as [|c s IH]; intros sub Hsub; [reflexivity|].
  destruct sub as [|a sub]; [discriminate|].
  cbn [Js.trimEnd].
  destruct sub as [|b sub].
  - simpl in Hsub.
    destruct (Js.trimEnd s); [|reflexivity].
    destruct (Js.is_space c) eqn:Hc; simpl; [|now rewrite andb_true_r].
    destruct (Ascii.eqb_spec a c) as [->|]; [|reflexivity].
    now rewrite Hc in Hsub.
  - assert (Hsub' : ends_nonspace (String b sub) = true) by exact Hsub.
    specialize (IH _ Hsub').
    destruct (Js.trimEnd s) as [|x r] eqn:E.
    + cbn [Js.startsWith] in IH |- *. rewrite <- IH.
      destruct (Js.is_space c); simpl; now rewrite ?andb_false_r.
    + cbn [Js.startsWith] in IH |- *. now rewrite IH.
Qed.

Lemma includes_trimEnd : forall s sub,
  ends_nonspace sub = true ->
  Js.includes (Js.trimEnd s) sub = Js.includes s sub.
Proof.
  induction s as [|c s IH]; intros sub Hsub; [reflexivity|].
  pose proof (startsWith_trimEnd (String c s) sub Hsub) as Hst.
  specialize (IH _ Hsub).
  cbn [Js.includes]; rewrite <- Hst, <- IH.
  cbn [Js.trimEnd].
  destruct (Js.trimEnd s) as [|x r] eqn:E.
  - destruct (Js.is_space c); simpl; now rewrite ?orb_false_r, ?orb_diag.
  - reflexivity.
Qed.

Lemma includes_trimStart : forall s sub,
  starts_nonspace sub = true ->
  Js.includes (Js.trimStart s) sub = Js.includes s sub.
Proof.
  induction s as [|c s IH]; intros sub Hsub; [reflexivity|].
  cbn [Js.trimStart].
  destruct (Js.is_space c) eqn:Hc; [|reflexivity].
  rewrite (IH _ Hsub); cbn [Js.includes].
  destruct sub as [|a sub]; [discriminate|]; simpl in Hsub |- *.
  destruct (Ascii.eqb_spec a c) as [->|]; [|reflexivity].
  now rewrite Hc in Hsub.
Qed.

(** Trimming a piece does not change whether it contains a substring that
    neither starts nor ends with white space. *)
Lemma includes_trim : forall s sub,
  starts_nonspace sub = true -> ends_nonspace sub = true ->
  Js.includes (Js.trim s) sub = Js.includes s sub.
Proof.
  intros s sub H1 H2; unfold Js.trim.
  now rewrite includes_trimEnd, includes_trimStart.
Qed.

Lemma keepLan_trim : forall addr, keepLan (Js.trim addr) = keepLan addr.
Proof.
  intros addr; unfold keepLan; now rewrite !includes_trim.
Qed.

Lemma map_filter_commute : forall (A : Type) (f : A -> A) (keep : A -> bool) l,
  (forall x, keep (f x) = keep x) ->
  map f (filter keep l) = filter keep (map f l).
Proof.
  intros A f keep l H; induction l as [|x l IH]; [reflexivity|].
  cbn [map filter]; rewrite H.
  destruct (keep x); cbn [map]; now rewrite IH.
Qed.

(** The claim as worded ends by saying that the sequence holds the
    entries that remain after the tunnel address.  On the field
    "10.0.0.5/32,192.168.1.0/24" the tunnel address is "10.0.0.5" and the
    entry it was read from is still in localNetworks. *)
Lemma tunnel_entry_stays_in_lans :
  let peer := rawPeer "10.0.0.5/32,192.168.1.0/24" None None None in
  let p := processPeer peer in
  ~ (lans p = localNetworks_spec (wg_allowed_address peer)
     /\ forall entry, In entry (lans p) -> Js.includes entry (wgIP p) = false).
Proof.
  intros peer p [_ H].
  specialize (H "10.0.0.5/32" (or_introl eq_refl)).
  vm_compute in H; discriminate H.
Qed.

(** C4, as the code has it.  localNetworks is the allowed-address field
    split on commas, each piece trimmed, without exactly the pieces that
    contain one of the two infrastructure substrings; being a filter of a
    map of the split, it keeps the order of the input and its duplicates.
    No entry is left out for being the tunnel address: every trimmed
    piece free of the two substrings is in the sequence. *)
Theorem local_networks_split_trim_exclude : forall reserved overrides peer,
  lans (processPeerWith reserved overrides peer)
  = localNetworks_spec (wg_allowed_address peer)
  /\ forall piece,
       In piece (map Js.trim (Js.split "," (wg_allowed_address peer))) ->
       Js.includes piece "100.100.100" = false ->
       Js.includes piece "172.16.100" = false ->
       In piece (lans (processPeerWith reserved overrides peer)).
Proof.
  intros R O peer.
  assert (E : lans (processPeerWith R O peer)
              = localNetworks_spec (wg_allowed_address peer)).
  { cbn [lans processPeerWith].
    unfold lansOf, localNetworks_spec.
    rewrite (map_filter_commute _ Js.trim keepLan) by apply keepLan_trim.
    apply filter_ext; intros piece; unfold keepLan.
    now rewrite negb_orb. }
  split; [exact E|].
  intros piece Hin H1 H2; rewrite E; unfold localNetworks_spec.
  apply filter_In; split; [exact Hin|].
  now rewrite H1, H2.
Qed.

(** ** C1 and C2: the classifier *)

Lemma chr_i_M : forall c,
  Ascii.eqb (Js.lower_char c) (Js.lower_char "M") = true ->
  (c = "M" \/ c = "m")%char.
Proof.
  intros [[] [] [] [] [] [] [] []]; vm_compute; intros H;
    first [discriminate H | auto].
Qed.

Lemma chr_i_C : forall c,
  Ascii.eqb (Js.lower_char c) (Js.lower_char "C") = true ->
  (c = "C" \/ c = "c")%char.
Proof.
  intros [[] [] [] [] [] [] [] []]; vm_compute; intros H;
    first [discriminate H | auto].
Qed.

Lemma matches_mc_inv : forall ps,
  matches mc_re ps ->
  exists m c ds,
    ps = [String m ""; String c ""; ds]
    /\ (m = "M" \/ m = "m")%char /\ (c = "C" \/ c = "c")%char
    /\ digits ds.
Proof.
  intros ps H; unfold matches, mc_re, Regex.Chr_i in H.
  inversion H as [|a1 x re1 ps1 H1 T1]; subst; clear H.
  inversion T1 as [|a2 y re2 ps2 H2 T2]; subst; clear T1.
  inversion T2 as [|a3 z re3 ps3 H3 T3]; subst; clear T2.
  inversion T3; subst; clear T3.
  inversion H1 as [p1 m Hm|]; subst.
  inversion H2 as [p2 c Hc|]; subst.
  apply plus_piece_inv in H3.
  exists m, c, z; repeat split;
    [now apply chr_i_M | now apply chr_i_C | apply H3 | apply H3].
Qed.

Lemma has_mc_matches : forall m c d,
  (m = "M" \/ m = "m")%char -> (c = "C" \/ c = "c")%char ->
  Js.is_digit d = true ->
  matches mc_re [String m ""; String c ""; String d ""].
Proof.
  intros m c d Hm Hc Hd; unfold matches, mc_re, Regex.Chr_i.
  repeat apply Forall2_cons; try apply Forall2_nil.
  - constructor; destruct Hm as [->| ->]; reflexivity.
  - constructor; destruct Hc as [->| ->]; reflexivity.
  - constructor; [discriminate | simpl; now rewrite Hd].
Qed.

(** The pattern finds a match exactly in the names that contain "MC"
    followed by a digit, and the captured text is a run of digits. *)
Lemma mcMatch_None_iff : forall nm, mcMatch nm = None <-> ~ has_mc nm.
Proof.
  intros nm; unfold mcMatch; split.
  - intros H (pre & m & c & d & post & -> & Hm & Hc & Hd).
    apply option_map_None in H.
    apply (search_no_match _ _ H pre _ post (has_mc_matches _ _ _ Hm Hc Hd)).
    reflexivity.
  - intros Hno.
    destruct (Regex.search mc_re nm) as [r|] eqn:S; [|reflexivity].
    exfalso; apply Hno.
    destruct (search_leftmost _ _ _ S) as (Hps & (post & Hocc) & _).
    destruct (matches_mc_inv _ Hps) as (m & c & ds & E & Hm & Hc & Hne & Hds).
    unfold occurs_at, Regex.whole in Hocc; rewrite E in Hocc.
    destruct ds as [|d ds]; [contradiction|].
    simpl in Hds; apply andb_prop in Hds as [Hd _].
    exists (Regex.skipped r), m, c, d, ((ds ++ "") ++ post).
    rewrite Hocc; cbn [Regex.flatten append]; auto.
Qed.

Lemma mcMatch_digits : forall nm ds, mcMatch nm = Some ds -> digits ds.
Proof.
  intros nm ds H; unfold mcMatch in H.
  apply option_map_Some in H as (r & S & ->).
  destruct (search_leftmost _ _ _ S) as (Hps & _ & _).
  destruct (matches_mc_inv _ Hps) as (m & c & ds & -> & _ & _ & Hds).
  exact Hds.
Qed.

Lemma parseInt_digits : forall ds,
  digits ds -> Js.parseInt ds = Some (Js.parseDigits 0 ds).
Proof.
  intros [|c ds] [Hne Hall]; [contradiction|].
  simpl in Hall; apply andb_prop in Hall as [Hc _].
  unfold Js.parseInt; now rewrite Hc.
Qed.

(** C1. When the name contains "MC" (in either case) followed by digits,
    a number is extracted and the final status follows the precedence:
    static-override if the number is a key of the override table (also
    when it is in the reserved set), else reserved if it is in the reserved
    set, else the handshake-based default. *)
Theorem status_precedence : forall reserved overrides peer,
  has_mc (name (processPeerWith reserved overrides peer)) ->
  exists digits_ n,
    mcMatch (name (processPeerWith reserved overrides peer)) = Some digits_
    /\ Js.parseInt digits_ = Some n
    /\ status (processPeerWith reserved overrides peer)
       = if existsb (fun s => N.eqb (mcNumber s) n) overrides
         then "static-override"
         else if existsb (N.eqb n) reserved
              then "reserved-ddns"
              else defaultStatus (wg_last_handshake peer).
Proof.
  intros R O peer Hmc; cbn [name status processPeerWith] in *.
  unfold classify.
  destruct (mcMatch (resolveName peer)) as [ds|] eqn:E.
  - pose proof (parseInt_digits _ (mcMatch_digits _ _ E)) as Hp.
    exists ds, (Js.parseDigits 0 ds); repeat split; [exact Hp|].
    rewrite Hp; cbn [isOverride isReserved].
    destruct (existsb _ O); [reflexivity|].
    destruct (existsb _ R); reflexivity.
  - apply mcMatch_None_iff in E; contradiction.
Qed.

Lemma has_mc_MC7 : has_mc "MC7".
Proof.
  exists "", "M"%char, "C"%char, "7"%char, ""; repeat split; auto.
Qed.

Lemma status_precedence_witness :
  has_mc (name (processPeer
                  (rawPeer "10.0.0.5/32" (Some "MC7") None (Some "15s"))))
  /\ exists digits_ n,
       mcMatch "MC7" = Some digits_
       /\ Js.parseInt digits_ = Some n
       /\ status (processPeer
                    (rawPeer "10.0.0.5/32" (Some "MC7") None (Some "15s")))
          = if existsb (fun s => N.eqb (mcNumber s) n) STATIC_OVERRIDES
            then "static-override"
            else if existsb (N.eqb n) DDNS_RESERVED_MCS
                 then "reserved-ddns"
                 else defaultStatus (Some "15s").
Proof.
  split; [exact has_mc_MC7|].
  apply (status_precedence DDNS_RESERVED_MCS STATIC_OVERRIDES
           (rawPeer "10.0.0.5/32" (Some "MC7") None (Some "15s"))).
  exact has_mc_MC7.
Defined.

(** A number listed in both tables ends as static-override. *)
Example both_tables_static_override :
  status (processPeerWith [7%N] [ {| mcNumber := 7; lan := "10.1.1.1" |} ]
            (rawPeer "10.0.0.5/32" (Some "mc007") None (Some "15s")))
  = "static-override".
Proof. reflexivity. Qed.

Lemma isActive_iff : forall lh, isActive lh = true <-> recent_handshake lh.
Proof.
  intros [s|]; unfold recent_handshake; simpl; split.
  - intros H.
    repeat (apply andb_prop in H as [H ?]).
    exists s; repeat split; try (now apply negb_true_iff).
    intros ->; discriminate.
  - intros (s' & [= <-] & Hne & -> & -> & ->).
    destruct s as [|c s]; [contradiction | reflexivity].
  - discriminate.
  - intros (s' & [=] & _).
Qed.

(** C2. When the name yields no "MC"+digits match, the status is active
    exactly when the last-handshake field is present, not empty, and
    contains none of the markers h, d, w, and inactive otherwise; a
    missing or empty field gives inactive, and "15s" gives active. *)
Theorem default_status_without_mc : forall reserved overrides peer,
  ~ has_mc (name (processPeerWith reserved overrides peer)) ->
  let st := status (processPeerWith reserved overrides peer) in
  (st = "active" <-> recent_handshake (wg_last_handshake peer))
  /\ (st = "inactive" <-> ~ recent_handshake (wg_last_handshake peer))
  /\ (wg_last_handshake peer = None -> st = "inactive")
  /\ (wg_last_handshake peer = Some "" -> st = "inactive")
  /\ (wg_last_handshake peer = Some "15s" -> st = "active").
Proof.
  intros R O peer Hno; cbn [name status processPeerWith] in *.
  apply mcMatch_None_iff in Hno.
  unfold classify; rewrite Hno; unfold defaultStatus; cbn zeta.
  pose proof (isActive_iff (wg_last_handshake peer)) as Hiff.
  destruct (isActive (wg_last_handshake peer)) eqn:A.
  - assert (Hr : recent_handshake (wg_last_handshake peer))
      by now apply Hiff.
    repeat split; auto; try discriminate; try contradiction.
    + intros E; rewrite E in A; discriminate.
    + intros E; rewrite E in A; discriminate.
  - assert (Hr : ~ recent_handshake (wg_last_handshake peer))
      by (intros H; apply Hiff in H; discriminate).
    repeat split; auto; try discriminate; try contradiction.
    intros E; rewrite E in A; discriminate.
Qed.

Lemma no_mc_in_sentinel : ~ has_mc "Sin nombre".
Proof. apply mcMatch_None_iff; reflexivity. Qed.

Lemma default_status_without_mc_witness :
  let peer := rawPeer "10.0.0.9" None None (Some "15s") in
  let st := status (processPeer peer) in
  ~ has_mc (name (processPeer peer))
  /\ (st = "active" <-> recent_handshake (wg_last_handshake peer))
  /\ (st = "inactive" <-> ~ recent_handshake (wg_last_handshake peer))
  /\ (wg_last_handshake peer = None -> st = "inactive")
  /\ (wg_last_handshake peer = Some "" -> st = "inactive")
  /\ (wg_last_handshake peer = Some "15s" -> st = "active").
Proof.
  split; [exact no_mc_in_sentinel|].
  apply (default_status_without_mc DDNS_RESERVED_MCS STATIC_OVERRIDES
           (rawPeer "10.0.0.9" None None (Some "15s"))).
  exact no_mc_in_sentinel.
Defined.

(** The scenario of the specification with a name that matches the pattern
    but whose number is in neither table. *)
Example mc99_stays_active :
  status (processPeer (rawPeer "10.0.0.99" (Some "MC99") None (Some "15s")))
  = "active".
Proof. reflexivity. Qed.

Example mc8_without_handshake :
  status (processPeer (rawPeer "10.0.0.8" (Some "MC8") None None))
  = "static-override"
  /\ defaultStatus None = "inactive".
Proof. split; reflexivity. Qed.

(** ** C3: the MC7 scenario *)

(** The scenario as the specification words it: localNetworks would be
    the single entry "192.168.1.0/24".  The code keeps the tunnel entry
    "10.0.0.5/32" as well, since it contains neither infrastructure
    substring. *)
Lemma scenario_MC7_lans_not_singleton :
  let p := processPeer (scenarioMC7 "*1" "" "" "wg0" None None) in
  ~ (wgIP p = "10.0.0.5" /\ lans p = ["192.168.1.0/24"]
     /\ status p = "reserved-ddns").
Proof. intros p (_ & H & _); vm_compute in H; discriminate H. Qed.

(** C3, as the code has it.  For the record with allowed-address
    "10.0.0.5/32,192.168.1.0/24,172.16.100.5", name "MC7" and
    last-handshake "2d3h": the tunnel address is "10.0.0.5", localNetworks
    is ["10.0.0.5/32"; "192.168.1.0/24"] (only the 172.16.100.x entry is
    excluded, the tunnel entry is kept), and the status is reserved
    although the handshake alone gives inactive. *)
Theorem scenario_MC7 : forall ident endpoint cur itf cmt dis,
  let p := processPeer (scenarioMC7 ident endpoint cur itf cmt dis) in
  wgIP p = "10.0.0.5"
  /\ lans p = ["10.0.0.5/32"; "192.168.1.0/24"]
  /\ status p = "reserved-ddns"
  /\ defaultStatus (Some "2d3h") = "inactive".
Proof. intros; repeat split; reflexivity. Qed.

(** ** C9: the search filter *)

Lemma includes_lower_query : forall q1 q2 field,
  same_modulo_case q1 q2 ->
  Js.includes (Js.toLowerCase field) (Js.toLowerCase q1)
  = Js.includes (Js.toLowerCase field) (Js.toLowerCase q2).
Proof. intros q1 q2 field H; unfold same_modulo_case in H; now rewrite H. Qed.

Lemma address_char_lower : forall c c',
  address_char c = true -> Js.lower_char c' = Js.lower_char c -> c' = c.
Proof.
  intros [[] [] [] [] [] [] [] []] c' H; vm_compute in H; try discriminate H;
    destruct c' as [[] [] [] [] [] [] [] []]; vm_compute; intros E;
    first [reflexivity | discriminate E].
Qed.

Lemma startsWith_all_chars : forall p q s,
  Js.startsWith s q = true -> all_chars p s = true -> all_chars p q = true.
Proof.
  intros p; induction q as [|a q IH]; intros [|b s] H Hs; simpl in *;
    try reflexivity; try discriminate.
  apply andb_prop in H as [Hab H]; apply andb_prop in Hs as [Hb Hs].
  apply Ascii.eqb_eq in Hab; subst b.
  now rewrite Hb, (IH _ H Hs).
Qed.

Lemma includes_all_chars : forall p q s,
  Js.includes s q = true -> all_chars p s = true -> all_chars p q = true.
Proof.
  intros p q; induction s as [|b s IH]; intros H Hs; cbn [Js.includes] in H;
    apply orb_prop in H as [H|H]; try discriminate.
  - apply (startsWith_all_chars _ _ _ H Hs).
  - apply (startsWith_all_chars _ _ _ H Hs).
  - simpl in Hs; apply andb_prop in Hs as [_ Hs]; auto.
Qed.

Lemma address_query_case : forall q q',
  all_chars address_char q = true -> same_modulo_case q' q -> q' = q.
Proof.
  unfold same_modulo_case.
  induction q as [|a q IH]; intros [|a' q'] Hq E; simpl in *;
    try reflexivity; try discriminate.
  injection E as Ea E; apply andb_prop in Hq as [Ha Hq].
  now rewrite (address_char_lower _ _ Ha Ea), (IH _ Hq E).
Qed.

(** On a tunnel address made of digits and dots, the raw comparison gives
    the same answer for two queries that differ only in letter case. *)
Lemma includes_address_case : forall ip q1 q2,
  all_chars address_char ip = true -> same_modulo_case q1 q2 ->
  Js.includes ip q1 = Js.includes ip q2.
Proof.
  intros ip q1 q2 Hip H.
  destruct (Js.includes ip q1) eqn:E1.
  - pose proof (includes_all_chars _ _ _ E1 Hip) as Hq.
    assert (q2 = q1) as -> by (apply address_query_case; [exact Hq | now symmetry]).
    now rewrite E1.
  - destruct (Js.includes ip q2) eqn:E2; [|reflexivity].
    pose proof (includes_all_chars _ _ _ E2 Hip) as Hq.
    assert (q1 = q2) as -> by (apply address_query_case; assumption).
    congruence.
Qed.

(** The text predicate does not depend on the letter case of the query on
    peers whose tunnel address is a real address. *)
Lemma textMatches_case_on_addresses : forall q1 q2 peersList,
  same_modulo_case q1 q2 ->
  Forall (fun p => all_chars address_char (wgIP p) = true) peersList ->
  textMatches q1 peersList = textMatches q2 peersList.
Proof.
  intros q1 q2 l H Hl; unfold textMatches, applyFilters.
  cbn [peers searchTerm filterStatus loaded setFilteredPeers filteredPeers].
  assert (Hempty : (q1 =? "") = (q2 =? "")).
  { unfold same_modulo_case in H.
    destruct q1, q2; simpl in *; try reflexivity; discriminate. }
  rewrite Hempty; destruct (q2 =? ""); cbn [negb String.eqb]; [reflexivity|].
  apply filter_ext_in; intros p Hp; unfold matchesSearch.
  rewrite Forall_forall in Hl.
  now rewrite !(includes_lower_query q1 q2), (includes_address_case _ q1 q2 (Hl _ Hp)).
Qed.

(** C9, evaluated on a peer without address.  The record has no dotted
    quad in its allowed-address field, so its tunnel address is the
    sentinel "N/A"; the queries "N/A" and "n/a" differ only in letter case,
    yet the first selects the peer and the second does not: the comparison
    with the tunnel address is made on the raw query. *)
Theorem search_is_case_sensitive_on_sentinel :
  let l := processPeers [rawPeer "" None None None] in
  same_modulo_case "N/A" "n/a"
  /\ map wgIP l = ["N/A"]
  /\ textMatches "N/A" l = l
  /\ textMatches "n/a" l = [].
Proof. repeat split; reflexivity. Qed.

(** ** C10: empty optional fields *)

(** C10. An optional field holding the empty string is treated exactly
    like an absent one: for the name, the last handshake and the comment
    the processed peer is the same in both cases; an empty name falls
    through to the comment and then to the sentinel; an empty last
    handshake is displayed as "never" and gives the default status
    inactive; an empty endpoint address becomes "N/A"; an absent comment
    becomes the empty string. *)
Theorem empty_string_is_absent : forall reserved overrides peer,
  let process := processPeerWith reserved overrides in
  process (set_name (Some "") peer) = process (set_name None peer)
  /\ process (set_last_handshake (Some "") peer)
     = process (set_last_handshake None peer)
  /\ process (set_comment (Some "") peer) = process (set_comment None peer)
  /\ name (process (set_name (Some "") peer))
     = Js.or_else (wg_comment peer) "Sin nombre"
  /\ name (process (set_comment (Some "") (set_name (Some "") peer)))
     = "Sin nombre"
  /\ lastHandshake (process (set_last_handshake (Some "") peer)) = "never"
  /\ defaultStatus (Some "") = "inactive"
  /\ endpointAddress (process (set_endpoint "" peer)) = "N/A"
  /\ comment (process (set_comment None peer)) = "".
Proof.
  intros R O peer process; subst process.
  assert (Hcomment :
            processPeerWith R O (set_comment (Some "") peer)
            = processPeerWith R O (set_comment None peer)).
  { unfold processPeerWith, resolveName.
    cbn [set_comment wg_id wg_allowed_address wg_comment wg_name
         wg_last_handshake wg_current_endpoint_address].
    destruct (wg_name peer) as [[|c s]|]; reflexivity. }
  assert (Hname :
            name (processPeerWith R O (set_name (Some "") peer))
            = Js.or_else (wg_comment peer) "Sin nombre").
  { cbn [name processPeerWith]; unfold resolveName.
    cbn [set_name wg_name wg_comment].
    destruct (wg_comment peer) as [[|c s]|]; reflexivity. }
  repeat split; solve [reflexivity | exact Hcomment | exact Hname].
Qed.

(** * Further properties of the component *)

(** ** Substrings *)

Lemma startsWith_iff : forall p s,
  Js.startsWith s p = true <-> exists post, s = p ++ post.
Proof.
  induction p as [|a p IH]; intros s; simpl.
  - split; [intros _; exists s; reflexivity | reflexivity].
  - destruct s as [|b s].
    + split; [discriminate | intros (post & H); discriminate H].
    + rewrite andb_true_iff, Ascii.eqb_eq, IH; split.
      * intros (-> & post & ->); exists post; reflexivity.
      * intros (post & H); injection H as -> ->; split; [reflexivity | eauto].
Qed.

Lemma includes_iff : forall sub s,
  Js.includes s sub = true <-> exists pre post, occurs_at pre sub post s.
Proof.
  intros sub; unfold occurs_at; induction s as [|c s IH]; cbn [Js.includes].
  - rewrite orb_false_r, startsWith_iff; split.
    + intros (post & ->); exists "", post; reflexivity.
    + intros ([|c pre] & post & H); [exists post; exact H | discriminate H].
  - rewrite orb_true_iff, startsWith_iff, IH; split.
    + intros [(post & ->) | (pre & post & ->)].
      * exists "", post; reflexivity.
      * exists (String c pre), post; reflexivity.
    + intros ([|c' pre] & post & H).
      * left; exists post; exact H.
      * injection H as -> ->; right; exists pre, post; reflexivity.
Qed.

Lemma includes_refl : forall s, Js.includes s s = true.
Proof.
  intros s; apply includes_iff; exists "", ""; unfold occurs_at.
  now rewrite append_nil_r.
Qed.

Lemma includes_trans : forall s q' q,
  Js.includes s q' = true -> Js.includes q' q = true ->
  Js.includes s q = true.
Proof.
  intros s q' q H1 H2.
  apply includes_iff in H1 as (pre & post & ->).
  apply includes_iff in H2 as (a & b & ->).
  apply includes_iff; exists (pre ++ a), (b ++ post); unfold occurs_at.
  now rewrite !append_assoc.
Qed.

(** ** The local networks of a processed peer *)

Lemma all_chars_trimStart : forall p s,
  all_chars p s = true -> all_chars p (Js.trimStart s) = true.
Proof.
  intros p; induction s as [|c s IH]; intros H; [reflexivity|].
  cbn [Js.trimStart]; destruct (Js.is_space c); [|exact H].
  simpl in H; apply andb_prop in H as [_ H]; auto.
Qed.

Lemma all_chars_trimEnd : forall p s,
  all_chars p s = true -> all_chars p (Js.trimEnd s) = true.
Proof.
  intros p; induction s as [|c s IH]; intros H; [reflexivity|].
  simpl in H; apply andb_prop in H as [Hc H]; specialize (IH H).
  cbn [Js.trimEnd]; destruct (Js.trimEnd s) as [|x r].
  - destruct (Js.is_space c); simpl; [reflexivity | now rewrite Hc].
  - cbn [all_chars] in IH |- *; now rewrite Hc, IH.
Qed.

Lemma trimEnd_ends : forall s,
  Js.trimEnd s = "" \/ ends_nonspace (Js.trimEnd s) = true.
Proof.
  induction s as [|c s IH]; [left; reflexivity|].
  cbn [Js.trimEnd]; destruct (Js.trimEnd s) as [|x r].
  - destruct (Js.is_space c) eqn:E; [left; reflexivity | right; simpl; now rewrite E].
  - right; destruct IH as [IH|IH]; [discriminate | exact IH].
Qed.

Lemma trimStart_starts : forall s,
  Js.trimStart s = "" \/ starts_nonspace (Js.trimStart s) = true.
Proof.
  induction s as [|c s IH]; [left; reflexivity|].
  cbn [Js.trimStart]; destruct (Js.is_space c) eqn:E; [exact IH|].
  right; simpl; now rewrite E.
Qed.

(** [trimEnd] keeps the first character of a text that starts with a
    character other than white space. *)
Lemma trimEnd_keeps_start : forall s,
  starts_nonspace s = true -> starts_nonspace (Js.trimEnd s) = true.
Proof.
  intros [|c s] H; [discriminate|]; simpl in H.
  cbn [Js.trimEnd]; destruct (Js.trimEnd s).
  - apply negb_true_iff in H; rewrite H; simpl; now rewrite H.
  - exact H.
Qed.

Lemma trim_trimmed : forall s, trimmed (Js.trim s).
Proof.
  intros s; unfold trimmed, Js.trim.
  destruct (trimStart_starts s) as [E|E].
  - rewrite E; left; reflexivity.
  - destruct (trimEnd_ends (Js.trimStart s)) as [E'|E']; [left; exact E'|].
    right; split; [apply trimEnd_keeps_start, E | exact E'].
Qed.

(** X1. No entry of localNetworks contains one of the two infrastructure
    substrings, no entry contains a comma, and every entry is trimmed
    (empty, or without white space at either end). *)
Theorem lans_entries_clean : forall reserved overrides peer entry,
  In entry (lans (processPeerWith reserved overrides peer)) ->
  Js.includes entry "100.100.100" = false
  /\ Js.includes entry "172.16.100" = false
  /\ Js.includes entry "," = false
  /\ trimmed entry.
Proof.
  intros R O peer entry H; cbn [lans processPeerWith] in H; unfold lansOf in H.
  apply in_map_iff in H as (piece & <- & H).
  apply filter_In in H as [Hin Hkeep].
  rewrite <- keepLan_trim in Hkeep; unfold keepLan in Hkeep.
  apply andb_prop in Hkeep as [H1 H2].
  apply negb_true_iff in H1; apply negb_true_iff in H2.
  repeat split; [exact H1 | exact H2 | | apply trim_trimmed].
  pose proof (split_pieces_without_sep "," (wg_allowed_address peer)) as Hs.
  rewrite Forall_forall in Hs; specialize (Hs _ Hin).
  apply all_chars_trimStart, all_chars_trimEnd in Hs; fold (Js.trim piece) in Hs.
  destruct (Js.includes (Js.trim piece) ",") eqn:E; [|reflexivity].
  apply (includes_all_chars _ _ _ E) in Hs; discriminate Hs.
Qed.

Lemma lans_entries_clean_witness :
  In "192.168.1.0/24"
     (lans (processPeer
              (rawPeer "100.100.100.7/32, 192.168.1.0/24 ,172.16.100.5"
                 (Some "MC7") None None)))
  /\ Js.includes "192.168.1.0/24" "100.100.100" = false
  /\ Js.includes "192.168.1.0/24" "172.16.100" = false
  /\ Js.includes "192.168.1.0/24" "," = false
  /\ trimmed "192.168.1.0/24".
Proof.
  split; [left; reflexivity|].
  apply (lans_entries_clean DDNS_RESERVED_MCS STATIC_OVERRIDES
           (rawPeer "100.100.100.7/32, 192.168.1.0/24 ,172.16.100.5"
              (Some "MC7") None None)).
  left; reflexivity.
Defined.

Lemma split_length : forall s, length (Js.split "," s) = S (commas s).
Proof.
  induction s as [|c s IH]; [reflexivity|].
  cbn [Js.split commas]; destruct (Ascii.eqb c ",").
  - cbn [length]; now rewrite IH.
  - destruct (Js.split "," s); [discriminate IH | exact IH].
Qed.

Lemma filter_nil_iff : forall (A : Type) (keep : A -> bool) l,
  filter keep l = [] <-> Forall (fun x => keep x = false) l.
Proof.
  intros A keep; induction l as [|x l IH]; simpl.
  - split; [constructor | reflexivity].
  - destruct (keep x) eqn:E; split.
    + discriminate.
    + intros H; inversion H; congruence.
    + intros H; constructor; [exact E | now apply IH].
    + intros H; inversion H; now apply IH.
Qed.

(** X2. localNetworks has at most one entry per comma-separated piece of
    the field, and it is empty exactly when every piece contains one of
    the two infrastructure substrings; only then does the LANs cell show
    a dash, otherwise it shows the entries joined by ", ". *)
Theorem lans_cell_dash : forall reserved overrides peer,
  let p := processPeerWith reserved overrides peer in
  let pieces := Js.split "," (wg_allowed_address peer) in
  (length (lans p) <= S (commas (wg_allowed_address peer)))%nat
  /\ (lans p = [] <->
      Forall (fun piece =>
                Js.includes piece "100.100.100" = true
                \/ Js.includes piece "172.16.100" = true) pieces)
  /\ lansCell p = match lans p with
                  | [] => "-"
                  | _ :: _ => joinWith ", " (lans p)
                  end.
Proof.
  intros R O peer; cbn zeta; cbn [lans processPeerWith]; unfold lansOf.
  split; [|split].
  - rewrite length_map, <- split_length; apply filter_length_le.
  - split.
    + intros H; apply map_eq_nil, filter_nil_iff in H.
      eapply Forall_impl; [|exact H]; cbn beta.
      intros piece Hk; unfold keepLan in Hk.
      apply andb_false_iff in Hk as [Hk|Hk]; apply negb_false_iff in Hk; auto.
    + intros H.
      assert (Hf : filter keepLan (Js.split "," (wg_allowed_address peer)) = []).
      { apply filter_nil_iff; eapply Forall_impl; [|exact H]; cbn beta.
        intros piece [Hk|Hk]; unfold keepLan; rewrite Hk;
          [reflexivity | apply andb_false_r]. }
      now rewrite Hf.
  - unfold lansCell; cbn [lans processPeerWith]; unfold lansOf.
    destruct (map Js.trim _); reflexivity.
Qed.

(** An empty allowed-address field gives one empty entry, so the cell is
    empty rather than a dash. *)
Example lans_cell_of_empty_field :
  let p := processPeer (rawPeer "" None None None) in
  lans p = [""] /\ lansCell p = "".
Proof. split; reflexivity. Qed.

(** ** The tunnel address of a well-formed field *)

Lemma search_here : forall re s ps,
  Regex.match_here re s = Some ps ->
  Regex.search re s = Some {| Regex.skipped := ""; Regex.pieces := ps |}.
Proof. intros re [|c s] ps H; simpl; now rewrite H. Qed.

Lemma ipv4_match_here : forall q rest,
  is_quad q -> next_is Js.is_digit rest = false ->
  exists ps, Regex.match_here ipv4_re (q ++ rest) = Some ps
             /\ Regex.flatten ps = q.
Proof.
  intros q rest Hq Hrest.
  destruct (quad_matches_ipv4 _ Hq) as (ps0 & Hps0 & E0).
  pose proof (match_here_complete _ _ Hps0 rest) as Hc; rewrite E0 in Hc.
  destruct (Regex.match_here ipv4_re (q ++ rest)) as [ps|] eqn:E;
    [|contradiction].
  exists ps; split; [reflexivity|].
  destruct (match_here_sound _ _ _ E) as (Hps & _).
  pose proof (matches_ipv4_quad _ Hps) as Hq'.
  change ipv4_re
    with ([ Regex.Plus Js.is_digit; Regex.Lit "."; Regex.Plus Js.is_digit;
            Regex.Lit "."; Regex.Plus Js.is_digit; Regex.Lit "." ]%char
          ++ [Regex.Plus Js.is_digit])%list in E.
  apply match_here_greedy_last in E as (post & E & Hpost).
  pose proof (quad_longest _ _ _ _ Hq' Hq Hpost (eq_sym E)) as L1.
  pose proof (quad_longest _ _ _ _ Hq Hq' Hrest E) as L2.
  symmetry in E; apply append_same_length in E as [E _]; [exact E | lia].
Qed.

(** X3. When the allowed-address field starts with a dotted quad that is
    followed by something other than a digit (a CIDR suffix, a comma, a
    port, or nothing), the tunnel address is that quad: the suffix is
    dropped. *)
Theorem tunnel_address_strips_suffix : forall reserved overrides peer q rest,
  wg_allowed_address peer = q ++ rest ->
  is_quad q -> next_is Js.is_digit rest = false ->
  wgIP (processPeerWith reserved overrides peer) = q.
Proof.
  intros R O peer q rest E Hq Hrest; cbn [wgIP processPeerWith].
  unfold wgIPMatch; rewrite E.
  destruct (ipv4_match_here _ _ Hq Hrest) as (ps & Hm & <-).
  now rewrite (search_here _ _ _ Hm).
Qed.

Lemma quad_100_64_0_7 : is_quad "100.64.0.7".
Proof.
  exists "100", "64", "0", "7"; unfold digits.
  repeat split; solve [reflexivity | discriminate].
Qed.

Lemma tunnel_address_strips_suffix_witness :
  wg_allowed_address (rawPeer "100.64.0.7/32,192.168.1.0/24" None None None)
  = "100.64.0.7" ++ "/32,192.168.1.0/24"
  /\ is_quad "100.64.0.7"
  /\ next_is Js.is_digit "/32,192.168.1.0/24" = false
  /\ wgIP (processPeer (rawPeer "100.64.0.7/32,192.168.1.0/24" None None None))
     = "100.64.0.7".
Proof.
  split; [reflexivity|]; split; [exact quad_100_64_0_7|];
    split; [reflexivity|].
  apply (tunnel_address_strips_suffix DDNS_RESERVED_MCS STATIC_OVERRIDES
           (rawPeer "100.64.0.7/32,192.168.1.0/24" None None None)
           "100.64.0.7" "/32,192.168.1.0/24");
    [reflexivity | exact quad_100_64_0_7 | reflexivity].
Defined.

Lemma all_chars_append : forall p a b,
  all_chars p (a ++ b) = all_chars p a && all_chars p b.
Proof.
  intros p; induction a as [|c a IH]; intros b; simpl; [reflexivity|].
  now rewrite IH, andb_assoc.
Qed.

Lemma digits_address_chars : forall s,
  all_chars Js.is_digit s = true -> all_chars address_char s = true.
Proof.
  induction s as [|c s IH]; intros H; [reflexivity|]; cbn [all_chars] in *.
  apply andb_prop in H as [Hc H]; rewrite (IH H), andb_true_r.
  unfold address_char; now rewrite Hc.
Qed.

Lemma quad_address_chars : forall m,
  is_quad m -> all_chars address_char m = true.
Proof.
  intros m (a & b & c & d & -> & [_ Ha] & [_ Hb] & [_ Hc] & [_ Hd]).
  rewrite !all_chars_append.
  rewrite (digits_address_chars a Ha), (digits_address_chars b Hb),
    (digits_address_chars c Hc), (digits_address_chars d Hd).
  reflexivity.
Qed.

Lemma wgIP_address_chars : forall reserved overrides peer,
  wgIPMatch (wg_allowed_address peer) <> None ->
  all_chars address_char (wgIP (processPeerWith reserved overrides peer))
  = true.
Proof.
  intros R O peer H; cbn [wgIP processPeerWith]; unfold wgIPMatch in *.
  destruct (Regex.search ipv4_re (wg_allowed_address peer)) as [r|] eqn:S;
    [|contradiction]; cbn [option_map].
  destruct (search_leftmost _ _ _ S) as (Hps & _ & _).
  apply quad_address_chars, matches_ipv4_quad, Hps.
Qed.

(** X4. On peers processed from records whose allowed-address field holds
    a dotted quad, the text predicate does not depend on the letter case
    of the query. *)
Theorem search_case_insensitive_with_addresses : forall rawPeers q1 q2,
  Forall (fun r => wgIPMatch (wg_allowed_address r) <> None) rawPeers ->
  same_modulo_case q1 q2 ->
  textMatches q1 (processPeers rawPeers) = textMatches q2 (processPeers rawPeers).
Proof.
  intros raws q1 q2 H Hq; apply textMatches_case_on_addresses; [exact Hq|].
  unfold processPeers; apply Forall_map.
  eapply Forall_impl; [|exact H]; cbn beta.
  intros r Hr; apply wgIP_address_chars, Hr.
Qed.

Lemma search_case_insensitive_with_addresses_witness :
  let rawPeers := [rawPeer "10.0.0.5/32" (Some "Casa Norte") None None;
                   rawPeer "10.0.0.6/32" (Some "Bodega") (Some "norte") None] in
  Forall (fun r => wgIPMatch (wg_allowed_address r) <> None) rawPeers
  /\ same_modulo_case "NORTE" "norte"
  /\ textMatches "NORTE" (processPeers rawPeers)
     = textMatches "norte" (processPeers rawPeers).
Proof.
  assert (H : Forall (fun r => wgIPMatch (wg_allowed_address r) <> None)
                [rawPeer "10.0.0.5/32" (Some "Casa Norte") None None;
                 rawPeer "10.0.0.6/32" (Some "Bodega") (Some "norte") None])
    by (repeat constructor; discriminate).
  split; [exact H|]; split; [reflexivity|].
  apply (search_case_insensitive_with_addresses _ "NORTE" "norte" H).
  reflexivity.
Defined.

(** ** The number read from the name *)

Lemma search_cons : forall re c s,
  Regex.search re (String c s)
  = match Regex.match_here re (String c s) with
    | Some ps => Some {| Regex.skipped := ""; Regex.pieces := ps |}
    | None => option_map (Regex.shift c) (Regex.search re s)
    end.
Proof. reflexivity. Qed.

Lemma mc_match_here_other : forall ch s,
  other_than_m ch = true -> Regex.match_here mc_re (String ch s) = None.
Proof.
  intros ch s H; unfold other_than_m in H; apply negb_true_iff in H.
  unfold mc_re, Regex.Chr_i; cbn [Regex.match_here].
  change (Js.lower_char "M") with "m"%char; now rewrite H.
Qed.

Lemma mc_search_skips : forall pre s r,
  all_chars other_than_m pre = true ->
  Regex.search mc_re s = Some r ->
  Regex.search mc_re (pre ++ s)
  = Some {| Regex.skipped := pre ++ Regex.skipped r;
            Regex.pieces := Regex.pieces r |}.
Proof.
  induction pre as [|ch pre IH]; intros s r Hpre Hs.
  - destruct r; exact Hs.
  - simpl in Hpre; apply andb_prop in Hpre as [Hch Hpre].
    cbn [append]; rewrite search_cons, (mc_match_here_other _ _ Hch).
    now rewrite (IH _ _ Hpre Hs).
Qed.

Lemma mc_match_here : forall m c ds rest,
  (m = "M" \/ m = "m")%char -> (c = "C" \/ c = "c")%char ->
  digits ds -> next_is Js.is_digit rest = false ->
  Regex.match_here mc_re (String m (String c (ds ++ rest)))
  = Some [String m ""; String c ""; ds].
Proof.
  intros m c ds rest Hm Hc [Hne Hds] Hrest.
  assert (Hmatch : matches mc_re [String m ""; String c ""; ds]).
  { unfold matches, mc_re, Regex.Chr_i.
    repeat apply Forall2_cons; try apply Forall2_nil.
    - constructor; destruct Hm as [->| ->]; reflexivity.
    - constructor; destruct Hc as [->| ->]; reflexivity.
    - constructor; assumption. }
  pose proof (match_here_complete _ _ Hmatch rest) as Hsome.
  cbn [Regex.flatten append] in Hsome; rewrite append_nil_r in Hsome.
  destruct (Regex.match_here mc_re (String m (String c (ds ++ rest))))
    as [ps|] eqn:E; [|contradiction].
  destruct (match_here_sound _ _ _ E) as (Hps & _).
  destruct (matches_mc_inv _ Hps) as (m' & c' & ds' & -> & _ & _ & _ & Hds').
  change mc_re
    with ([Regex.Chr_i "M"; Regex.Chr_i "C"]%char
          ++ [Regex.Plus Js.is_digit])%list in E.
  apply match_here_greedy_last in E as (post & E & Hpost).
  cbn [Regex.flatten append] in E; rewrite append_nil_r in E.
  injection E as -> -> E.
  pose proof (digit_run_longest _ _ _ _ Hds' Hrest E) as L1.
  pose proof (digit_run_longest _ _ _ _ Hds Hpost (eq_sym E)) as L2.
  apply append_same_length in E as [-> _]; [reflexivity | lia].
Qed.

Lemma mcMatch_prefix_run : forall pre m c ds rest,
  all_chars other_than_m pre = true ->
  (m = "M" \/ m = "m")%char -> (c = "C" \/ c = "c")%char ->
  digits ds -> next_is Js.is_digit rest = false ->
  mcMatch (pre ++ String m (String c (ds ++ rest))) = Some ds.
Proof.
  intros pre m c ds rest Hpre Hm Hc Hds Hrest; unfold mcMatch.
  pose proof (search_here _ _ _ (mc_match_here _ _ _ _ Hm Hc Hds Hrest)) as S.
  now rewrite (mc_search_skips _ _ _ Hpre S).
Qed.

(** X5. When the name has no letter M before an "MC" (in either case)
    that is followed by a run of digits, the text captured for the number
    is that whole run, up to the first character that is not a digit, and
    the status is decided by the decimal value of that run: "MC70" is
    number 70, not 7. *)
Theorem mc_number_is_whole_run :
  forall reserved overrides lh pre m c ds rest,
  all_chars other_than_m pre = true ->
  (m = "M" \/ m = "m")%char -> (c = "C" \/ c = "c")%char ->
  digits ds -> next_is Js.is_digit rest = false ->
  let nm := pre ++ String m (String c (ds ++ rest)) in
  mcMatch nm = Some ds
  /\ classify reserved overrides nm lh
     = if existsb (fun s => N.eqb (mcNumber s) (Js.parseDigits 0 ds)) overrides
       then "static-override"
       else if existsb (N.eqb (Js.parseDigits 0 ds)) reserved
            then "reserved-ddns"
            else defaultStatus lh.
Proof.
  intros R O lh pre m c ds rest Hpre Hm Hc Hds Hrest; cbn zeta.
  pose proof (mcMatch_prefix_run _ _ _ _ _ Hpre Hm Hc Hds Hrest) as E.
  split; [exact E|].
  unfold classify; rewrite E, (parseInt_digits _ Hds).
  cbn [isReserved isOverride].
  destruct (existsb _ O); [reflexivity|].
  destruct (existsb _ R); reflexivity.
Qed.

Lemma mc_number_is_whole_run_witness :
  all_chars other_than_m "Sede " = true
  /\ digits "70"
  /\ next_is Js.is_digit " norte" = false
  /\ mcMatch "Sede mC70 norte" = Some "70"
  /\ classify DDNS_RESERVED_MCS STATIC_OVERRIDES "Sede mC70 norte" (Some "2d")
     = "reserved-ddns".
Proof.
  assert (Hd : digits "70") by (split; [discriminate | reflexivity]).
  split; [reflexivity|]; split; [exact Hd|]; split; [reflexivity|].
  apply (mc_number_is_whole_run DDNS_RESERVED_MCS STATIC_OVERRIDES (Some "2d")
           "Sede " "m" "C" "70" " norte");
    [reflexivity | right; reflexivity | left; reflexivity | exact Hd
    | reflexivity].
Defined.

Lemma digits_zero_cons : forall ds, digits ds -> digits (String "0" ds).
Proof. intros ds [_ H]; split; [discriminate | simpl; exact H]. Qed.

(** X6. A zero written before the number does not change the
    classification: "MC07" is classified as "MC7". *)
Theorem leading_zero_same_status :
  forall reserved overrides lh pre m c ds rest,
  all_chars other_than_m pre = true ->
  (m = "M" \/ m = "m")%char -> (c = "C" \/ c = "c")%char ->
  digits ds -> next_is Js.is_digit rest = false ->
  classify reserved overrides
    (pre ++ String m (String c (String "0" ds ++ rest))) lh
  = classify reserved overrides (pre ++ String m (String c (ds ++ rest))) lh.
Proof.
  intros R O lh pre m c ds rest Hpre Hm Hc Hds Hrest; unfold classify.
  rewrite (mcMatch_prefix_run _ _ _ _ _ Hpre Hm Hc
             (digits_zero_cons _ Hds) Hrest).
  rewrite (mcMatch_prefix_run _ _ _ _ _ Hpre Hm Hc Hds Hrest).
  rewrite (parseInt_digits _ Hds).
  reflexivity.
Qed.

Lemma leading_zero_same_status_witness :
  all_chars other_than_m "" = true
  /\ digits "7"
  /\ next_is Js.is_digit "" = false
  /\ classify DDNS_RESERVED_MCS STATIC_OVERRIDES "MC07" (Some "15s")
     = classify DDNS_RESERVED_MCS STATIC_OVERRIDES "MC7" (Some "15s").
Proof.
  assert (Hd : digits "7") by (split; [discriminate | reflexivity]).
  split; [reflexivity|]; split; [exact Hd|]; split; [reflexivity|].
  apply (leading_zero_same_status DDNS_RESERVED_MCS STATIC_OVERRIDES
           (Some "15s") "" "M" "C" "7" "");
    [reflexivity | left; reflexivity | left; reflexivity | exact Hd
    | reflexivity].
Defined.

(** ** Statistics *)

Lemma status_indicator_sum : forall s,
  let b (t : string) : Z := if (s =? t) then 1%Z else 0%Z in
  (closed_status s /\ b "active" + b "inactive" + b "reserved-ddns"
                       + b "static-override" = 1)%Z
  \/ (~ closed_status s /\ b "active" + b "inactive" + b "reserved-ddns"
                            + b "static-override" = 0)%Z.
Proof.
  intros s; cbn zeta; unfold closed_status.
  destruct (String.eqb_spec s "active") as [->|N1]; [left; auto|].
  destruct (String.eqb_spec s "inactive") as [->|N2]; [left; auto|].
  destruct (String.eqb_spec s "reserved-ddns") as [->|N3]; [left; auto|].
  destruct (String.eqb_spec s "static-override") as [->|N4]; [left; auto|].
  right; split; [tauto | reflexivity].
Qed.

Lemma countStatus_cons : forall s p l,
  countStatus s (p :: l)
  = ((if (status p =? s)%string then 1 else 0) + countStatus s l)%Z.
Proof.
  intros s p l; unfold countStatus; cbn [filter].
  destruct (status p =? s); cbn [length]; lia.
Qed.

(** X7. For any list of peers, whatever their status strings: no count is
    negative, the four per-status counts together never exceed the total,
    and they reach it exactly when every status is one of the four;
    available and total always add up to 200. *)
Theorem stats_counts_bounded : forall peersList st,
  let s := stats (calculateStats peersList st) in
  (0 <= active s /\ 0 <= inactive s /\ 0 <= reserved_ s /\ 0 <= static s
   /\ active s + inactive s + reserved_ s + static s <= total s
   /\ (active s + inactive s + reserved_ s + static s = total s
       <-> Forall (fun p => closed_status (status p)) peersList)
   /\ available s + total s = 200)%Z.
Proof.
  intros l st; cbn zeta.
  cbn [stats calculateStats setStats active inactive reserved_ static total
       available].
  repeat (split; [unfold countStatus; lia|]).
  assert (H : (countStatus "active" l + countStatus "inactive" l
               + countStatus "reserved-ddns" l
               + countStatus "static-override" l
               <= Z.of_nat (length l)
               /\ (countStatus "active" l + countStatus "inactive" l
                   + countStatus "reserved-ddns" l
                   + countStatus "static-override" l
                   = Z.of_nat (length l)
                   <-> Forall (fun p => closed_status (status p)) l))%Z).
  { induction l as [|p l [IHle IHiff]].
    - split; [reflexivity | split; [constructor | reflexivity]].
    - rewrite !countStatus_cons; cbn [length]; rewrite Nat2Z.inj_succ.
      destruct (status_indicator_sum (status p)) as [[Hc E]|[Hc E]];
        cbn zeta in E.
      + split; [lia|]; split.
        * intros H; constructor; [exact Hc | apply IHiff; lia].
        * intros H; inversion H as [|x l' _ Hl]; subst.
          apply IHiff in Hl; lia.
      + split; [lia|]; split.
        * intros H; exfalso; lia.
        * intros H; inversion H; contradiction. }
  destruct H as [Hle Hiff]; split; [exact Hle|]; split; [exact Hiff | lia].
Qed.

(** X8. The statistics computed right after processing a batch of raw
    records: the total is the number of records, the four counts add up
    to it, and available is 200 minus the number of records. *)
Theorem stats_of_processed_batch : forall rawPeers st,
  let s := stats (calculateStats (processPeers rawPeers) st) in
  (total s = Z.of_nat (length rawPeers)
   /\ active s + inactive s + reserved_ s + static s
      = Z.of_nat (length rawPeers)
   /\ available s = 200 - Z.of_nat (length rawPeers))%Z.
Proof.
  intros raws st; cbn zeta.
  cbn [stats calculateStats setStats active inactive reserved_ static total
       available].
  rewrite (counts_partition _ (processPeers_closed raws)).
  unfold processPeers; rewrite length_map; auto.
Qed.

(** ** The filter effect *)

Lemma filter_twice : forall (A : Type) (f g : A -> bool) l,
  filter f (filter g l) = filter (fun x => g x && f x) l.
Proof.
  intros A f g; induction l as [|x l IH]; [reflexivity|].
  cbn [filter]; destruct (g x); cbn [filter andb]; now rewrite IH.
Qed.

Lemma applyFilters_passes : forall st,
  filteredPeers (applyFilters st)
  = filter (passes (searchTerm st) (filterStatus st)) (peers st).
Proof.
  intros st; unfold applyFilters, passes; cbn [filteredPeers setFilteredPeers].
  destruct (searchTerm st =? ""), (filterStatus st =? "all");
    cbn [negb orb].
  - symmetry; apply forallb_filter_id, forallb_forall; reflexivity.
  - apply filter_ext; reflexivity.
  - apply filter_ext; intros p; now rewrite andb_true_r.
  - apply filter_twice.
Qed.

(** X9. The effect's two conditional passes amount to one pass over
    [peers], in order: a peer is listed exactly when it is in [peers],
    the search term is empty or matches it, and the status filter is
    "all" or equals its status.  The effect changes nothing but
    [filteredPeers]. *)
Theorem filter_effect_characterised : forall st,
  filteredPeers (applyFilters st)
  = filter (passes (searchTerm st) (filterStatus st)) (peers st)
  /\ (forall p,
        In p (filteredPeers (applyFilters st)) <->
        In p (peers st)
        /\ (searchTerm st = "" \/ matchesSearch (searchTerm st) p = true)
        /\ (filterStatus st = "all" \/ status p = filterStatus st))
  /\ peers (applyFilters st) = peers st
  /\ searchTerm (applyFilters st) = searchTerm st
  /\ filterStatus (applyFilters st) = filterStatus st
  /\ stats (applyFilters st) = stats st.
Proof.
  intros st; split; [apply applyFilters_passes|].
  split; [|repeat split; reflexivity].
  intros p; rewrite applyFilters_passes, filter_In; unfold passes.
  rewrite andb_true_iff, !orb_true_iff, !String.eqb_eq; reflexivity.
Qed.

(** X10. Filtering is idempotent: running the effect on a state whose
    [peers] is already the filtered list gives the same list. *)
Theorem filter_effect_idempotent : forall st,
  filteredPeers
    (applyFilters (setPeers (filteredPeers (applyFilters st)) (applyFilters st)))
  = filteredPeers (applyFilters st).
Proof.
  intros st; rewrite (applyFilters_passes (setPeers _ _)).
  cbn [peers searchTerm filterStatus setPeers applyFilters setFilteredPeers].
  rewrite applyFilters_passes, filter_twice.
  apply filter_ext; intros p; apply andb_diag.
Qed.

(** X11. With an empty search term, the number of rows listed under a
    status button is the number shown on the card of that status. *)
Theorem status_button_matches_card : forall peersList st,
  let s := stats (calculateStats peersList st) in
  let rows flt :=
    Z.of_nat (length (filteredPeers (applyFilters (loaded peersList "" flt)))) in
  rows "active" = active s
  /\ rows "inactive" = inactive s
  /\ rows "reserved-ddns" = reserved_ s
  /\ rows "static-override" = static s
  /\ rows "all" = total s.
Proof. intros l st; repeat split; reflexivity. Qed.

Lemma matchesSearch_refine : forall q q' p,
  Js.includes q' q = true ->
  Js.includes (Js.toLowerCase q') (Js.toLowerCase q) = true ->
  matchesSearch q' p = true -> matchesSearch q p = true.
Proof.
  intros q q' p Hq Hl; unfold matchesSearch; rewrite !orb_true_iff.
  intros [[H|H]|H].
  - left; left; apply (includes_trans _ _ _ H Hl).
  - left; right; apply (includes_trans _ _ _ H Hq).
  - right; apply (includes_trans _ _ _ H Hl).
Qed.

(** X12. Refining the query never adds rows: if the query [q] occurs in
    the query [q'], and the lower-cased [q] occurs in the lower-cased
    [q'], every peer listed for [q'] is listed for [q], under the same
    status filter.  The property uses of the lower-casing only that both
    sides of a comparison go through it. *)
Theorem search_refinement_narrows : forall peersList q q' flt p,
  Js.includes q' q = true ->
  Js.includes (Js.toLowerCase q') (Js.toLowerCase q) = true ->
  In p (filteredPeers (applyFilters (loaded peersList q' flt))) ->
  In p (filteredPeers (applyFilters (loaded peersList q flt))).
Proof.
  intros l q q' flt p Hq Hl.
  rewrite !applyFilters_passes; cbn [peers searchTerm filterStatus loaded].
  rewrite !filter_In; unfold passes; rewrite !andb_true_iff, !orb_true_iff.
  intros (Hin & [Hempty|Hm] & Hst); (split; [exact Hin|]); (split; [|exact Hst]).
  - apply String.eqb_eq in Hempty; subst q'.
    destruct q; [left; reflexivity | discriminate Hq].
  - right; apply (matchesSearch_refine _ _ _ Hq Hl Hm).
Qed.

Lemma search_refinement_narrows_witness :
  let l := processPeers [rawPeer "10.0.0.5/32" (Some "Casa Norte") None None;
                         rawPeer "10.0.0.6/32" (Some "Bodega") None None] in
  let p := processPeer (rawPeer "10.0.0.5/32" (Some "Casa Norte") None None) in
  Js.includes "Norte" "Nor" = true
  /\ Js.includes (Js.toLowerCase "Norte") (Js.toLowerCase "Nor") = true
  /\ In p (filteredPeers (applyFilters (loaded l "Norte" "all")))
  /\ In p (filteredPeers (applyFilters (loaded l "Nor" "all"))).
Proof.
  split; [reflexivity|]; split; [reflexivity|]; split; [left; reflexivity|].
  apply (search_refinement_narrows
           (processPeers
              [rawPeer "10.0.0.5/32" (Some "Casa Norte") None None;
               rawPeer "10.0.0.6/32" (Some "Bodega") None None])
           "Nor" "Norte" "all");
    [reflexivity | reflexivity | left; reflexivity].
Defined.

(** X13. Searching for a listed peer's name or tunnel address, as the
    table shows them, or for its stored comment, always lists that peer.
    The comment cell shows the stored comment when it is not empty, so
    searching for a displayed comment other than the dash lists the peer
    too. *)
Theorem search_finds_own_fields : forall peersList p,
  In p peersList ->
  In p (textMatches (name p) peersList)
  /\ In p (textMatches (wgIP p) peersList)
  /\ In p (textMatches (comment p) peersList)
  /\ (comment p <> "" ->
      commentCell p = comment p
      /\ In p (textMatches (commentCell p) peersList)).
Proof.
  intros l p Hin; unfold textMatches.
  assert (H : In p (filteredPeers (applyFilters (loaded l (name p) "all")))
              /\ In p (filteredPeers (applyFilters (loaded l (wgIP p) "all")))
              /\ In p (filteredPeers
                         (applyFilters (loaded l (comment p) "all")))).
  { rewrite !applyFilters_passes; cbn [peers searchTerm filterStatus loaded].
    rewrite !filter_In; unfold passes, matchesSearch.
    cbn [String.eqb]; rewrite !includes_refl, !orb_true_r, ?orb_true_l.
    cbn [orb andb]; rewrite ?orb_true_r; auto. }
  destruct H as (H1 & H2 & H3); repeat split; try assumption.
  - unfold commentCell; cbn [Js.or_else].
    destruct (comment p); [contradiction | reflexivity].
  - unfold commentCell; cbn [Js.or_else].
    destruct (comment p) eqn:E; [contradiction|].
    cbn [String.eqb]; exact H3.
Qed.

Lemma search_finds_own_fields_witness :
  let p := processPeer
             (rawPeer "10.0.0.5/32" (Some "Casa Norte") (Some "Fibra 20M")
                None) in
  In p [p]
  /\ In p (textMatches (name p) [p])
  /\ In p (textMatches (wgIP p) [p])
  /\ In p (textMatches (comment p) [p])
  /\ (comment p <> "" ->
      commentCell p = comment p /\ In p (textMatches (commentCell p) [p])).
Proof.
  split; [left; reflexivity|].
  apply (search_finds_own_fields
           [processPeer
              (rawPeer "10.0.0.5/32" (Some "Casa Norte") (Some "Fibra 20M")
                 None)]).
  left; reflexivity.
Defined.

(** The dash shown for an empty comment is not the stored comment:
    searching for it does not list the peer. *)
Example dash_of_empty_comment_not_found :
  let p := processPeer (rawPeer "10.0.0.5/32" (Some "Casa Norte") None None) in
  commentCell p = "-" /\ textMatches "-" [p] = [].
Proof. split; reflexivity. Qed.

(** ** The shipped tables *)

Lemma existsb_reserved_In : forall n,
  existsb (N.eqb n) DDNS_RESERVED_MCS = true <-> In n DDNS_RESERVED_MCS.
Proof.
  intros n; rewrite existsb_exists; split.
  - intros (x & Hin & E); apply N.eqb_eq in E; now subst.
  - intros H; exists n; split; [exact H | apply N.eqb_refl].
Qed.

Lemma existsb_override_In : forall n,
  existsb (fun s => N.eqb (mcNumber s) n) STATIC_OVERRIDES = true
  <-> In n (map mcNumber STATIC_OVERRIDES).
Proof.
  intros n; rewrite existsb_exists, in_map_iff; split.
  - intros (x & Hin & E); apply N.eqb_eq in E; eauto.
  - intros (x & E & Hin); exists x; split; [exact Hin | now apply N.eqb_eq].
Qed.

Lemma tables_disjoint : forall n,
  In n DDNS_RESERVED_MCS -> ~ In n (map mcNumber STATIC_OVERRIDES).
Proof.
  intros n H1 H2; cbn in H1, H2.
  repeat (destruct H1 as [H1|H1]; [subst n;
    repeat (destruct H2 as [H2|H2]; [discriminate H2|]); exact H2|]).
  exact H1.
Qed.

(** X14. With the tables as shipped, which share no number: the status is
    static-override exactly when the number read from the name is one of
    5, 8, 19, 21, 22, 31, 38, 63, and reserved exactly when it is one of
    2, 7, 14, 20, 26, 46, 62, 66, 70; no reserved number is masked by an
    override. *)
Theorem status_by_shipped_tables : forall peer,
  let p := processPeer peer in
  let number_in (table : list N) :=
    exists ds n, mcMatch (name p) = Some ds /\ Js.parseInt ds = Some n
                 /\ In n table in
  (status p = "static-override" <-> number_in (map mcNumber STATIC_OVERRIDES))
  /\ (status p = "reserved-ddns" <-> number_in DDNS_RESERVED_MCS).
Proof.
  intros peer; cbn zeta.
  unfold processPeer; cbn [name status processPeerWith]; unfold classify.
  destruct (mcMatch (resolveName peer)) as [ds|] eqn:E.
  - pose proof (parseInt_digits _ (mcMatch_digits _ _ E)) as Hp.
    rewrite Hp; cbn [isReserved isOverride].
    pose proof (existsb_override_In (Js.parseDigits 0 ds)) as HO.
    pose proof (existsb_reserved_In (Js.parseDigits 0 ds)) as HR.
    pose proof (tables_disjoint (Js.parseDigits 0 ds)) as HD.
    assert (Hsame : forall (table : list N),
              (exists ds' n, Some ds = Some ds' /\ Js.parseInt ds' = Some n
                             /\ In n table)
              <-> In (Js.parseDigits 0 ds) table).
    { intros table; split.
      - intros (ds' & n & [= <-] & Hn & Hin).
        rewrite Hp in Hn; injection Hn as <-; exact Hin.
      - intros Hin; exists ds, (Js.parseDigits 0 ds); auto. }
    rewrite !Hsame.
    destruct (existsb _ STATIC_OVERRIDES).
    + assert (HinO : In (Js.parseDigits 0 ds) (map mcNumber STATIC_OVERRIDES))
        by now apply HO.
      split; split; try discriminate; auto.
      intros Hin; exfalso; now apply (HD Hin).
    + assert (HnO : ~ In (Js.parseDigits 0 ds) (map mcNumber STATIC_OVERRIDES))
        by (intros H; apply HO in H; discriminate H).
      destruct (existsb _ DDNS_RESERVED_MCS).
      * split; split; try discriminate; try contradiction; auto.
        intros _; now apply HR.
      * assert (HnR : ~ In (Js.parseDigits 0 ds) DDNS_RESERVED_MCS)
          by (intros H; apply HR in H; discriminate H).
        unfold defaultStatus; destruct (isActive _);
          split; split; try discriminate; contradiction.
  - unfold defaultStatus; destruct (isActive _);
      split; split; try discriminate; intros (ds' & n & [=] & _).
Qed.

(** ** Shape of the processed list *)

Lemma flatten_matches_nonempty : forall ps,
  matches ipv4_re ps -> Regex.flatten ps <> "".
Proof.
  intros ps H; apply matches_ipv4_quad in H.
  destruct H as (a & b & c & d & -> & [Ha _] & _).
  destruct a; [contradiction | discriminate].
Qed.

(** X15. Processing keeps one peer per record, in order and with the same
    identifiers, and the displayed name, tunnel address, last handshake
    and endpoint address are never empty. *)
Theorem processed_list_shape : forall rawPeers,
  length (processPeers rawPeers) = length rawPeers
  /\ map id (processPeers rawPeers) = map wg_id rawPeers
  /\ Forall (fun p => name p <> "" /\ wgIP p <> "" /\ lastHandshake p <> ""
                      /\ endpointAddress p <> "")
            (processPeers rawPeers).
Proof.
  intros raws; unfold processPeers; split; [apply length_map|].
  split; [rewrite map_map; reflexivity|].
  apply Forall_map, Forall_forall; intros peer _.
  cbn [name wgIP lastHandshake endpointAddress processPeer processPeerWith].
  unfold processPeer; cbn [name wgIP lastHandshake endpointAddress processPeerWith].
  repeat split; try (apply or_else_nonempty; discriminate).
  unfold wgIPMatch.
  destruct (Regex.search ipv4_re (wg_allowed_address peer)) as [r|] eqn:S;
    cbn [option_map]; [|discriminate].
  destruct (search_leftmost _ _ _ S) as (Hps & _ & _).
  apply flatten_matches_nonempty, Hps.
Qed.

(** ** fetchPeers *)

(** X16. A failed fetch, whether the invocation reports an error or the
    answer has [success] false, leaves the peers, the filtered list, the
    statistics, the search term and the status filter as they were, ends
    with [loading] false and shows exactly one destructive toast carrying
    the error message ("Error desconocido" for a thrown value that is not
    an Error). *)
Theorem fetch_failure_keeps_data : forall c,
  (forall e,
     let c' := fetchPeers (InvokeError e) c in
     view c' = view c /\ loading c' = false
     /\ toasts c'
        = (toasts c
           ++ [ {| title := "Error al cargar datos";
                   description := match e with
                                  | ErrorObject m => m
                                  | OtherValue => "Error desconocido"
                                  end;
                   variant := Some "destructive" |} ])%list)
  /\ (forall rawPeers err,
        let c' :=
          fetchPeers (InvokeData {| success := false; data := rawPeers;
                                    error := err |}) c in
        view c' = view c /\ loading c' = false
        /\ toasts c'
           = (toasts c
              ++ [ {| title := "Error al cargar datos";
                      description := match err with
                                     | Some m => m
                                     | None => ""
                                     end;
                      variant := Some "destructive" |} ])%list).
Proof. intros c; split; intros; repeat split; reflexivity. Qed.

(** X17. After a successful refresh: [peers] is the processed batch, the
    listed peers are those of the batch that pass the search term and
    status filter in force (both are kept), the statistics cover the whole
    batch whatever the filter, [loading] is false, and one toast reports
    the number of records loaded. *)
Theorem refresh_success : forall c rawPeers err,
  let c' := refresh (InvokeData {| success := true; data := rawPeers;
                                   error := err |}) c in
  let s := stats (view c') in
  peers (view c') = processPeers rawPeers
  /\ filteredPeers (view c')
     = filter (passes (searchTerm (view c)) (filterStatus (view c)))
              (processPeers rawPeers)
  /\ searchTerm (view c') = searchTerm (view c)
  /\ filterStatus (view c') = filterStatus (view c)
  /\ (total s = Z.of_nat (length rawPeers)
      /\ active s + inactive s + reserved_ s + static s = total s
      /\ available s = 200 - Z.of_nat (length rawPeers))%Z
  /\ loading c' = false
  /\ toasts c'
     = (toasts c
        ++ [ {| title := "Datos actualizados";
                description :=
                  (numberToString (length rawPeers)
                   ++ " enlaces cargados correctamente")%string;
                variant := None |} ])%list.
Proof.
  intros c raws err; cbn zeta.
  unfold refresh, fetchPeers; cbn [fetchTry success data].
  cbn [onView setLoading toast view loading toasts].
  split; [reflexivity|]; split; [apply applyFilters_passes|].
  split; [reflexivity|]; split; [reflexivity|]; split.
  - cbn [applyFilters setFilteredPeers calculateStats setStats stats total
         active inactive reserved_ static available].
    rewrite (counts_partition _ (processPeers_closed raws)).
    unfold processPeers; rewrite length_map; auto.
  - split; [reflexivity|].
    unfold processPeers; now rewrite length_map.
Qed.

(** ** Status and handshake *)

(** X18. Whatever the name and the tables, a peer is never reported
    active unless its last-handshake field is present, not empty and free
    of the markers h, d and w, and never reported inactive when it is. *)
Theorem active_only_with_recent_handshake : forall reserved overrides peer,
  let p := processPeerWith reserved overrides peer in
  (status p = "active" -> recent_handshake (wg_last_handshake peer))
  /\ (status p = "inactive" -> ~ recent_handshake (wg_last_handshake peer)).
Proof.
  intros R O peer; cbn zeta; cbn [status processPeerWith]; unfold classify.
  assert (Hdefault :
            (defaultStatus (wg_last_handshake peer) = "active" ->
             recent_handshake (wg_last_handshake peer))
            /\ (defaultStatus (wg_last_handshake peer) = "inactive" ->
                ~ recent_handshake (wg_last_handshake peer))).
  { unfold defaultStatus.
    pose proof (isActive_iff (wg_last_handshake peer)) as Hiff.
    destruct (isActive (wg_last_handshake peer)); split; try discriminate.
    - intros _; now apply Hiff.
    - intros _ H; apply Hiff in H; discriminate H. }
  destruct (mcMatch (resolveName peer)) as [ds|]; [|exact Hdefault].
  destruct (isOverride O (Js.parseInt ds)); [split; discriminate|].
  destruct (isReserved R (Js.parseInt ds)); [split; discriminate|].
  exact Hdefault.
Qed.

(** X19. A record without a usable name or comment is shown under the
    sentinel name, which holds no number: its status is the handshake
    default, whatever the tables contain. *)
Theorem unnamed_peer_default_status : forall reserved overrides peer,
  Js.truthy (wg_name peer) = false -> Js.truthy (wg_comment peer) = false ->
  let p := processPeerWith reserved overrides peer in
  name p = "Sin nombre"
  /\ status p = defaultStatus (wg_last_handshake peer).
Proof.
  intros R O peer Hn Hc; cbn zeta; cbn [name status processPeerWith].
  assert (E : resolveName peer = "Sin nombre").
  { unfold resolveName, Js.or; rewrite Hn.
    destruct (wg_comment peer) as [[|ch s]|]; try reflexivity.
    discriminate Hc. }
  rewrite E; split; [reflexivity|].
  unfold classify.
  now rewrite (proj2 (mcMatch_None_iff "Sin nombre") no_mc_in_sentinel).
Qed.

Lemma unnamed_peer_default_status_witness :
  let peer := rawPeer "10.0.0.9/32" (Some "") None (Some "3h") in
  Js.truthy (wg_name peer) = false
  /\ Js.truthy (wg_comment peer) = false
  /\ name (processPeer peer) = "Sin nombre"
  /\ status (processPeer peer) = defaultStatus (wg_last_handshake peer).
Proof.
  split; [reflexivity|]; split; [reflexivity|].
  apply (unnamed_peer_default_status DDNS_RESERVED_MCS STATIC_OVERRIDES
           (rawPeer "10.0.0.9/32" (Some "") None (Some "3h")));
    reflexivity.
Defined.
